(** * The packages store of the desktop app (libs/stores/pkgs.ts)

    A shallow embedding of [initPackagesStore] and [withFakeLoader]:
    the list of package records, its update by [full_name], the
    initialisation that cross-references the installed packages, the
    install routine with its fabricated progress, and the search that
    delegates to the fuzzy index.

    Numbers are exact rationals (the source computes with doubles), with
    one extra value for what is not finite.  An [async] function is run
    to completion, with no other call in between: an awaited native call
    takes its outcome from the environment, and an exception leaves the
    store as it was when raised.  The calls that leave the module (the
    native calls, the logger, the analytics, the construction of the
    index) are recorded in a trace. *)

From Stdlib Require Import QArith Qround Qabs Qfield ZArith Lia Lqa Ascii.
From stdpp Require Import base option list strings sorting.

Local Open Scope string_scope.
Local Open Scope list_scope.
Local Open Scope nat_scope.

(** ** Numbers *)

(** A JavaScript number: a finite value, or [NonFinite] for the
    infinities and NaN.  Sums, differences and products of a value that is
    not finite are not finite; the code never divides by such a value. *)
Inductive number :=
  | Finite (q : Q)
  | NonFinite.

Definition num_lift2 (f : Q → Q → Q) (a b : number) : number :=
  match a, b with
  | Finite x, Finite y => Finite (f x y)
  | _, _ => NonFinite
  end.

Definition num_add := num_lift2 Qplus.
Definition num_sub := num_lift2 Qminus.
Definition num_mul := num_lift2 Qmult.

(** [a / b]: dividing by zero gives an infinity (or NaN for 0 / 0). *)
Definition num_div (a b : number) : number :=
  match a, b with
  | Finite x, Finite y => if Qeq_bool y 0 then NonFinite else Finite (x / y)
  | _, _ => NonFinite
  end.

(** [+x.toFixed(2)]: the nearest multiple of 1/100, a tie going away
    from zero ([toFixed] works on the absolute value and picks the larger
    candidate).  This is the rounding of the exact value.  The code
    rounds the double that it has computed, which can lie on the other
    side of a tie: 3/40 is 0.08 here, and the double of [3 / 40] is just
    below 0.075 and gives 0.07. *)
Definition toFixed2Q (q : Q) : Q :=
  let n := Qfloor (Qabs q * 100 + (1 # 2))%Q in
  if Qlt_le_dec q 0 then Qmake (- n) 100 else Qmake n 100.

Definition toFixed2 (x : number) : number :=
  match x with
  | Finite q => Finite (toFixed2Q q)
  | NonFinite => NonFinite
  end.

(** ** Data *)

(** The members of [PackageStates] that the store uses. *)
Inductive PackageStates :=
  | AVAILABLE
  | INSTALLED
  | INSTALLING
  | NEEDS_UPDATE
  | UPDATING.

Global Instance PackageStates_eq_dec : EqDecision PackageStates.
Proof. solve_decision. Defined.

Record Bottle := { bytes : N }.

(** A catalog entry as [getDistPackages] returns it. *)
Module Package.
Record t := {
  name : string;
  full_name : string;
  version : string;
  desc : string;
  categories : list string;
  bottles : option (list Bottle)
}.
End Package.

(** An entry of [getInstalledPackages]. *)
Module InstalledPackage.
Record t := {
  full_name : string;
  installed_versions : list string
}.
End InstalledPackage.

(** The record kept in the store: a [Package] and the fields of the UI.
    The fields that none of the functions below reads or writes are left
    out of both. *)
Record GUIPackage := {
  name : string;
  full_name : string;
  version : string;
  desc : string;
  categories : list string;
  bottles : option (list Bottle);
  state : PackageStates;
  installed_versions : option (list string);
  install_progress_percentage : option number
}.

(** [Partial<GUIPackage>]: [Some v] is a property that is present. *)
Module Partial.
Record t := {
  name : option string;
  full_name : option string;
  version : option string;
  desc : option string;
  categories : option (list string);
  bottles : option (list Bottle);
  state : option PackageStates;
  installed_versions : option (list string);
  install_progress_percentage : option number
}.
End Partial.

(** An optional property of the target: kept unless the source has it. *)
Definition over {A} (o x : option A) : option A :=
  match o with
  | Some _ => o
  | None => x
  end.

(** [{ ...pkg, ...props }] *)
Definition spread (pkg : GUIPackage) (props : Partial.t) : GUIPackage :=
  {| name := default (name pkg) (Partial.name props);
     full_name := default (full_name pkg) (Partial.full_name props);
     version := default (version pkg) (Partial.version props);
     desc := default (desc pkg) (Partial.desc props);
     categories := default (categories pkg) (Partial.categories props);
     bottles := over (Partial.bottles props) (bottles pkg);
     state := default (state pkg) (Partial.state props);
     installed_versions :=
       over (Partial.installed_versions props) (installed_versions pkg);
     install_progress_percentage :=
       over (Partial.install_progress_percentage props)
            (install_progress_percentage pkg) |}.

(** [{ ...p, state: PackageStates.AVAILABLE }] *)
Definition toGUI (p : Package.t) : GUIPackage :=
  {| name := Package.name p;
     full_name := Package.full_name p;
     version := Package.version p;
     desc := Package.desc p;
     categories := Package.categories p;
     bottles := Package.bottles p;
     state := AVAILABLE;
     installed_versions := None;
     install_progress_percentage := None |}.

(** What a [throw] carries: an [Error] with its message, or another value. *)
Inductive JsThrown :=
  | ErrorObj (message : string)
  | NonError (shown : string).

Inductive result (A : Type) :=
  | Ok (a : A)
  | Throw (e : JsThrown).
Arguments Ok {A} a.
Arguments Throw {A} e.

(** ** The fuzzy index *)

(** Fuse.js is a dependency of the store, not part of it.  Its index
    keeps, per document, its position in the collection and the
    values of the configured keys as they were when the index was built;
    the matcher that scores a record against a term is a parameter of the
    development ([None]: no match, a lower score ranks first). *)
Record FuseRecord := {
  idx : nat;
  key_name : string;
  key_full_name : string;
  key_desc : string;
  key_categories : list string
}.

Record Fuse := { records : list FuseRecord }.

Definition Matcher := string → FuseRecord → option Q.

(** [new Fuse(docs, { keys: ["name", "full_name", "desc", "categories"] })] *)
Definition record_of (n : nat) (g : GUIPackage) : FuseRecord :=
  {| idx := n; key_name := name g; key_full_name := full_name g;
     key_desc := desc g; key_categories := categories g |}.

Definition newFuse (docs : list GUIPackage) : Fuse :=
  {| records := imap record_of docs |}.

(** The results of [Fuse.search]: the records that match, best score
    first and the earlier document first among equals, cut to [limit]
    when it is above -1, each replaced by the document at its position.
    The index reads the collection it was given, and the store assigns
    into that same array, so the documents are the store's current list
    [docs]. *)
Definition scored (bitap : Matcher) (term : string) (r : FuseRecord) :
    option (Q * nat) :=
  (λ score, (score, idx r)) <$> bitap term r.

Definition sortFn (a b : Q * nat) : Prop :=
  if Qeq_bool a.1 b.1 then (a.2 ≤ b.2)%nat else (a.1 < b.1)%Q.

Global Instance sortFn_dec a b : Decision (sortFn a b).
Proof.
  unfold sortFn. destruct (Qeq_bool a.1 b.1).
  - apply _.
  - destruct (Qlt_le_dec a.1 b.1); [left | right]; eauto using Qle_not_lt.
Defined.

Definition slice_limit {A} (limit : Z) (l : list A) : list A :=
  if decide (-1 < limit)%Z then take (Z.to_nat limit) l else l.

Definition fuse_search (bitap : Matcher) (fuse : Fuse) (docs : list GUIPackage)
    (term : string) (limit : Z) : list GUIPackage :=
  let results := omap (scored bitap term) (records fuse) in
  let results := merge_sort sortFn results in
  let results := slice_limit limit results in
  omap (λ r, docs !! r.2) results.

(** ** The store *)

Record Store := {
  initialized : bool;
  syncProgress : Q;
  packages : list GUIPackage;
  requireTeaCli : bool;
  packagesIndex : option Fuse
}.

(** [initPackagesStore()] *)
Definition initPackagesStore : Store :=
  {| initialized := false; syncProgress := 0; packages := [];
     requireTeaCli := false; packagesIndex := None |}.

Definition set_initialized (b : bool) (s : Store) : Store :=
  {| initialized := b; syncProgress := syncProgress s; packages := packages s;
     requireTeaCli := requireTeaCli s; packagesIndex := packagesIndex s |}.

Definition set_syncProgress (v : Q) (s : Store) : Store :=
  {| initialized := initialized s; syncProgress := v; packages := packages s;
     requireTeaCli := requireTeaCli s; packagesIndex := packagesIndex s |}.

Definition set_packages (l : list GUIPackage) (s : Store) : Store :=
  {| initialized := initialized s; syncProgress := syncProgress s; packages := l;
     requireTeaCli := requireTeaCli s; packagesIndex := packagesIndex s |}.

Definition set_requireTeaCli (b : bool) (s : Store) : Store :=
  {| initialized := initialized s; syncProgress := syncProgress s;
     packages := packages s; requireTeaCli := b;
     packagesIndex := packagesIndex s |}.

Definition set_packagesIndex (f : Fuse) (s : Store) : Store :=
  {| initialized := initialized s; syncProgress := syncProgress s;
     packages := packages s; requireTeaCli := requireTeaCli s;
     packagesIndex := Some f |}.

(** ** What the store does to the outside *)

Inductive LogArg :=
  | ArgNat (n : nat)
  | ArgBool (b : bool).

Inductive Event :=
  | LogInfo (msg : string) (args : list LogArg)
  | LogError (error : JsThrown)
  | Native_getDistPackages
  | NewFuse (docs : nat)
  | Native_getInstalledPackages
  | Native_installPackage (pkg : GUIPackage) (version : string)
  | TrackInstall (fname : string)
  | TrackInstallFailed (fname message : string).

(** What the outside does during one call: the outcome of each native
    call, how many times the 100 ms interval fires while the install is
    pending, and the subscribers of [syncProgress], which [set] runs
    before it returns (an exception of theirs leaves [set]: it is the
    step of the loop of [init] that can throw after an update).  The two
    other stores are plain cells: their subscribers are taken to return,
    as are the logger and the analytics calls. *)
Record Env := {
  getDistPackages : result (list Package.t);
  getInstalledPackages : result (list InstalledPackage.t);
  installPackage : GUIPackage → string → result unit;
  install_ticks : nat;
  syncProgress_subscribers : Q → result unit
}.

(** ** A monad for the store's code: state, a trace and exceptions *)

Record World := { store : Store; events : list Event }.

Definition M (A : Type) : Type := World → result A * World.

Global Instance M_ret : MRet M := λ A a w, (Ok a, w).

Global Instance M_bind : MBind M := λ A B k m w,
  match m w with
  | (Ok a, w') => k a w'
  | (Throw e, w') => (Throw e, w')
  end.

(** [try { body } catch (error) { handler }] *)
Definition try_catch {A} (body : M A) (handler : JsThrown → M A) : M A :=
  λ w, match body w with
       | (Throw e, w') => handler e w'
       | done => done
       end.

(** [try { body } catch (error) { handler } finally { fin }] *)
Definition try_catch_finally {A} (body : M A) (handler : JsThrown → M A)
    (fin : M unit) : M A :=
  λ w, match try_catch body handler w with
       | (r, w') =>
           match fin w' with
           | (Ok _, w'') => (r, w'')
           | (Throw e, w'') => (Throw e, w'')
           end
       end.

Definition gets {A} (f : Store → A) : M A := λ w, (Ok (f (store w)), w).

Definition modify (f : Store → Store) : M unit :=
  λ w, (Ok tt, {| store := f (store w); events := events w |}).

Definition emit (e : Event) : M unit :=
  λ w, (Ok tt, {| store := store w; events := events w ++ [e] |}).

(** [await call]: the call is made and settles as the outside decides. *)
Definition await {A} (call : Event) (outcome : result A) : M A :=
  λ w, (outcome, {| store := store w; events := events w ++ [call] |}).

(** A callback of the outside, run in place. *)
Definition run_callback {A} (outcome : result A) : M A := λ w, (outcome, w).

Definition log_info (msg : string) (args : list LogArg) : M unit :=
  emit (LogInfo msg args).

Definition log_error (error : JsThrown) : M unit := emit (LogError error).

(** ** [updatePackage] *)

(** The function handed to [packages.update]: [findIndex] by [full_name],
    then [pkgs[i] = { ...pkgs[i], ...props }] when an index was found. *)
Definition update_callback (fname : string) (props : Partial.t)
    (pkgs : list GUIPackage) : list GUIPackage :=
  match list_find (λ pkg, full_name pkg = fname) pkgs with
  | Some (i, pkg) => <[i := spread pkg props]> pkgs
  | None => pkgs
  end.

Definition updatePackage (fname : string) (props : Partial.t) : M unit :=
  modify (λ s, set_packages (update_callback fname props (packages s)) s).

(** The three shapes of [props] that the store passes. *)
Definition props_state (st : PackageStates) : Partial.t :=
  {| Partial.name := None; Partial.full_name := None; Partial.version := None;
     Partial.desc := None; Partial.categories := None; Partial.bottles := None;
     Partial.state := Some st; Partial.installed_versions := None;
     Partial.install_progress_percentage := None |}.

Definition props_progress (progress : number) : Partial.t :=
  {| Partial.name := None; Partial.full_name := None; Partial.version := None;
     Partial.desc := None; Partial.categories := None; Partial.bottles := None;
     Partial.state := None; Partial.installed_versions := None;
     Partial.install_progress_percentage := Some progress |}.

Definition props_installed (versions : list string) (st : PackageStates) :
    Partial.t :=
  {| Partial.name := None; Partial.full_name := None; Partial.version := None;
     Partial.desc := None; Partial.categories := None; Partial.bottles := None;
     Partial.state := Some st; Partial.installed_versions := Some versions;
     Partial.install_progress_percentage := None |}.

(** ** [init] *)

(** [v === versions[0]] *)
Definition is_first_version (v : string) (versions : list string) : bool :=
  bool_decide (head versions = Some v).

Definition checkTeaCLIPackage (teaPkg : Package.t)
    (installedPkg : option InstalledPackage.t) : M unit :=
  match installedPkg with
  | None => modify (set_requireTeaCli true)
  | Some installed =>
      let isUpToDate :=
        is_first_version (Package.version teaPkg)
          (InstalledPackage.installed_versions installed) in
      log_info "check if Tea-CLI is up to date:" [ArgBool isUpToDate]
  end.

(** [syncProgress.set(v)]: a writable keeps an equal value and tells
    nobody; otherwise it stores the value and runs its subscribers. *)
Definition syncProgress_set (env : Env) (v : Q) : M unit :=
  old ← gets syncProgress;
  if Qeq_bool old v then mret tt
  else modify (set_syncProgress v);; run_callback (syncProgress_subscribers env v).

(** The properties written for an installed entry. *)
Definition installed_props (pkg : GUIPackage) (iPkg : InstalledPackage.t) :
    Partial.t :=
  let isUpdated :=
    is_first_version (version pkg) (InstalledPackage.installed_versions iPkg) in
  props_installed (InstalledPackage.installed_versions iPkg)
    (if isUpdated then INSTALLED else NEEDS_UPDATE).

(** [for (const [i, iPkg] of installedPkgs.entries()) { ... }], from
    position [i] on; [len] is [installedPkgs.length].  [guiPkgs] is the
    array the store holds, so [find] sees the list as it is now. *)
Fixpoint for_installed (env : Env) (len i : nat)
    (installedPkgs : list InstalledPackage.t) : M unit :=
  match installedPkgs with
  | [] => mret tt
  | iPkg :: rest =>
      guiPkgs ← gets packages;
      match list_find (λ p, full_name p = InstalledPackage.full_name iPkg)
                      guiPkgs with
      | Some (_, pkg) => updatePackage (full_name pkg) (installed_props pkg iPkg)
      | None => mret tt
      end;;
      syncProgress_set env
        (toFixed2Q (inject_Z (Z.of_nat (i + 1)) / inject_Z (Z.of_nat len)));;
      for_installed env len (S i) rest
  end.

(** The body of [try] in [init]. *)
Definition crossReference (env : Env) (pkgs : list Package.t) : M unit :=
  installedPkgs ← await Native_getInstalledPackages (getInstalledPackages env);
  log_info "sync test for tea-cli" [];;
  let distTea := list_find (λ p, Package.full_name p = "tea.xyz") pkgs in
  let installedTeaPkg :=
    list_find (λ p, InstalledPackage.full_name p = "tea.xyz") installedPkgs in
  match distTea with
  | Some (_, teaPkg) => checkTeaCLIPackage teaPkg (snd <$> installedTeaPkg)
  | None => mret tt
  end;;
  log_info "set NEEDS_UPDATE state to pkgs" [];;
  for_installed env (length installedPkgs) 0 installedPkgs.

(** The first [await] of [init] is [await getDistPackages()], outside
    [try]: [init_resumed] is the rest of the [if] block, run when that
    call settles. *)
Definition init_resumed (env : Env) : M unit :=
  pkgs ← run_callback (getDistPackages env);
  let guiPkgs := toGUI <$> pkgs in
  modify (set_packages guiPkgs);;
  log_info "initialized packages store with " [ArgNat (length guiPkgs)];;
  emit (NewFuse (length guiPkgs));;
  modify (set_packagesIndex (newFuse guiPkgs));;
  log_info "initialized packages fuse index" [];;
  try_catch (crossReference env pkgs) log_error.

Definition init (env : Env) : M unit :=
  log_info "packages store: try initialize" [];;
  fresh ← gets (λ s, negb (initialized s));
  (if fresh : bool then
     log_info "packages store: initializing..." [];;
     modify (set_initialized true);;
     emit Native_getDistPackages;;
     init_resumed env
   else mret ());;
  log_info "packages store: initialized!" [].

(** [init] up to that [await]: where a call that has started, and not
    yet continued, has left the world. *)
Definition init_started : M unit :=
  log_info "packages store: try initialize" [];;
  fresh ← gets (λ s, negb (initialized s));
  if fresh : bool then
    log_info "packages store: initializing..." [];;
    modify (set_initialized true);;
    emit Native_getDistPackages
  else mret ().

(** ** [withFakeLoader] *)

Definition assumedDlSpeedMb : number := Finite (1024 * 1024 * 3).

(** [pkg?.bottles?.length ? pkg.bottles[0].bytes : assumedDlSpeedMb * 10] *)
Definition loader_size (pkg : GUIPackage) : number :=
  match bottles pkg with
  | Some (bottle :: _) => Finite (inject_Z (Z.of_N (bytes bottle)))
  | _ => num_mul assumedDlSpeedMb (Finite 10)
  end.

Definition loader_eta (pkg : GUIPackage) : number :=
  num_div (loader_size pkg) assumedDlSpeedMb.

Definition loader_increment (pkg : GUIPackage) : number :=
  num_div (num_div (Finite 1) (loader_eta pkg)) (Finite 10).

(** One firing of the interval, on [fakeLoadingProgress]. *)
Definition next_progress (increment fakeLoadingProgress : number) : number :=
  let progressLeft := num_sub (Finite 100) fakeLoadingProgress in
  let addProgress := num_mul progressLeft increment in
  num_add fakeLoadingProgress addProgress.

(** [fakeLoadingProgress] after [n] firings, and what the callback is
    given at the [n]-th one, both in exact arithmetic.  In doubles a tick
    can leave the progress where it is, when what it adds is below the
    precision of the value; the exact progress always moves. *)
Definition loader_progress (increment : number) (n : nat) : number :=
  Nat.iter n (next_progress increment) (Finite 1).

Definition reported_progress (pkg : GUIPackage) (n : nat) : number :=
  toFixed2 (loader_progress (loader_increment pkg) n).

(** The timer that [withFakeLoader] returns, with the state it closes over. *)
Record FakeTimer := {
  increment : number;
  fakeLoadingProgress : number;
  callback : number → M unit
}.

Definition withFakeLoader (pkg : GUIPackage) (callback : number → M unit) :
    FakeTimer :=
  {| increment := loader_increment pkg;
     fakeLoadingProgress := Finite 1;
     callback := callback |}.

Definition interval_fires (t : FakeTimer) : M FakeTimer :=
  let progress := next_progress (increment t) (fakeLoadingProgress t) in
  callback t (toFixed2 progress);;
  mret {| increment := increment t; fakeLoadingProgress := progress;
          callback := callback t |}.

Fixpoint interval_runs (n : nat) (t : FakeTimer) : M FakeTimer :=
  match n with
  | O => mret t
  | S n => t' ← interval_fires t; interval_runs n t'
  end.

(** ** [installPkg] *)

(** [version || pkg.version] *)
Definition version_or (version : option string) (fallback : string) : string :=
  match version with
  | Some v => if decide (v = "") then fallback else v
  | None => fallback
  end.

(** The message given to [trackInstallFailed]. *)
Definition failure_message (error : JsThrown) : string :=
  let message :=
    match error with
    | ErrorObj m => m
    | NonError _ => "Unknown Error"
    end in
  if decide (message = "") then "unknown" else message.

(** The interval fires [install_ticks env] times between the native call
    and its settling; it is cleared in [finally] and fires no more. *)
Definition installPkg (env : Env) (pkg : GUIPackage) (wanted : option string) :
    M unit :=
  try_catch_finally
    (let st := if decide (state pkg = NEEDS_UPDATE) then UPDATING
               else INSTALLING in
     updatePackage (full_name pkg) (props_state st);;
     let fakeTimer :=
       withFakeLoader pkg (λ progress,
         updatePackage (full_name pkg) (props_progress progress)) in
     let v := version_or wanted (version pkg) in
     emit (Native_installPackage pkg v);;
     interval_runs (install_ticks env) fakeTimer;;
     run_callback (installPackage env pkg v);;
     emit (TrackInstall (full_name pkg));;
     updatePackage (full_name pkg) (props_state INSTALLED))
    (λ error, emit (TrackInstallFailed (full_name pkg) (failure_message error)))
    (updatePackage (full_name pkg) (props_progress (Finite 100))).

(** ** [search] *)

Definition search (bitap : Matcher) (s : Store) (term : string)
    (limit : option Z) : list GUIPackage :=
  let limit := default 5%Z limit in
  match packagesIndex s with
  | Some index =>
      if decide (term = "") then []
      else fuse_search bitap index (packages s) term limit
  | None => []
  end.

(** * Notions used in the statements *)

(** ** Records of the list, by name *)

(** [pkg] is at position [i], the first record named [fname]. *)
Definition first_named (fname : string) (pkgs : list GUIPackage) (i : nat)
    (pkg : GUIPackage) : Prop :=
  pkgs !! i = Some pkg ∧ full_name pkg = fname ∧
  ∀ j q, pkgs !! j = Some q → j < i → full_name q ≠ fname.

(** Position [j] holds the first occurrence of [n] in a list of names. *)
Definition first_at (names : list string) (j : nat) (n : string) : Prop :=
  names !! j = Some n ∧ ∀ k, k < j → names !! k ≠ Some n.

(** ** The fake loader in exact arithmetic *)

(** Equality of numbers, up to the representation of a fraction. *)
Definition num_eq (a b : number) : Prop :=
  match a, b with
  | Finite x, Finite y => (x == y)%Q
  | NonFinite, NonFinite => True
  | _, _ => False
  end.

Definition bytesQ (bottle : Bottle) : Q := inject_Z (Z.of_N (bytes bottle)).

(** The progress in exact arithmetic, for a finite increment. *)
Definition progressQ (inc : Q) (n : nat) : Q :=
  Nat.iter n (λ p, p + (100 - p) * inc)%Q 1%Q.

(** ** The rounds of the loop in [init] *)

(** What one round of the loop does to the list. *)
Definition crossref_step (pkgs : list GUIPackage) (iPkg : InstalledPackage.t) :
    list GUIPackage :=
  match list_find (λ p, full_name p = InstalledPackage.full_name iPkg) pkgs with
  | Some (_, pkg) =>
      update_callback (full_name pkg) (installed_props pkg iPkg) pkgs
  | None => pkgs
  end.

(** The store after some rounds: only the list and the progress move. *)
Definition after_rounds (s : Store) (rounds : list InstalledPackage.t)
    (progress : Q) : Store :=
  set_syncProgress progress
    (set_packages (foldl crossref_step (packages s) rounds) s).

(** A record of the list that still carries what the catalog entry [p]
    gave it; the state and the installed versions are free. *)
Definition cataloged (p : Package.t) (g : GUIPackage) : Prop :=
  spread g (props_installed [] AVAILABLE)
  = spread (toGUI p) (props_installed [] AVAILABLE).

(** The catalog after every installed entry has had its round. *)
Definition cross_referenced (cat : list Package.t)
    (inst : list InstalledPackage.t) : list GUIPackage :=
  foldl crossref_step (toGUI <$> cat) inst.

(** [p] is at position [j] of the catalog and no earlier entry has its
    [full_name]. *)
Definition first_in_catalog (cat : list Package.t) (j : nat) (p : Package.t) :
    Prop :=
  cat !! j = Some p ∧
  ∀ k q, cat !! k = Some q → k < j →
         Package.full_name q ≠ Package.full_name p.

(** [iPkg] is the last installed entry named [n]. *)
Definition last_installed (inst : list InstalledPackage.t) (n : string)
    (iPkg : InstalledPackage.t) : Prop :=
  InstalledPackage.full_name iPkg = n ∧
  ∃ before after : list InstalledPackage.t,
    inst = before ++ iPkg :: after ∧
    Forall (λ later, InstalledPackage.full_name later ≠ n) after.

(** ** The worlds that [init] passes through *)

Definition add_events (evs : list Event) (w : World) : World :=
  {| store := store w; events := events w ++ evs |}.

(** The world once the catalog is set and indexed (lines 81 to 97). *)
Definition catalog_set (cat : list Package.t) (w : World) : World :=
  {| store :=
       set_packagesIndex (newFuse (toGUI <$> cat))
         (set_packages (toGUI <$> cat) (set_initialized true (store w)));
     events :=
       events w ++
       [LogInfo "packages store: try initialize" [];
        LogInfo "packages store: initializing..." [];
        Native_getDistPackages;
        LogInfo "initialized packages store with " [ArgNat (length cat)];
        NewFuse (length cat);
        LogInfo "initialized packages fuse index" []] |}.

(** The check of the tea CLI (line 105): it returns, and touches
    [requireTeaCli] and the log only. *)
Definition tea_check (cat : list Package.t) (inst : list InstalledPackage.t) :
    M unit :=
  match list_find (λ p, Package.full_name p = "tea.xyz") cat with
  | Some (_, teaPkg) =>
      checkTeaCLIPackage teaPkg
        (snd <$> list_find (λ p, InstalledPackage.full_name p = "tea.xyz") inst)
  | None => mret ()
  end.

Definition only_logs (evs : list Event) : Prop :=
  Forall (λ ev, ∃ msg args, ev = LogInfo msg args) evs.

(** The world when the loop is entered, for a fetch that succeeded. *)
Definition loop_entered (cat : list Package.t) (inst : list InstalledPackage.t)
    (w : World) : World :=
  add_events [LogInfo "set NEEDS_UPDATE state to pkgs" []]
    (tea_check cat inst
       (add_events [Native_getInstalledPackages;
                    LogInfo "sync test for tea-cli" []] w)).2.

(** What a call logs when it finds the store initialized. *)
Definition idle_log : list Event :=
  [LogInfo "packages store: try initialize" [];
   LogInfo "packages store: initialized!" []].

(** One call after another, whatever each returns. *)
Fixpoint init_calls (envs : list Env) (w : World) : World :=
  match envs with
  | [] => w
  | env :: rest => init_calls rest (init env w).2
  end.

Definition is_fetch (ev : Event) : bool :=
  match ev with
  | Native_getDistPackages => true
  | _ => false
  end.

Definition is_build (ev : Event) : bool :=
  match ev with
  | NewFuse _ => true
  | _ => false
  end.

(** How often the catalog was fetched, and an index built. *)
Definition fetches (evs : list Event) : nat :=
  length (List.filter is_fetch evs).

Definition builds (evs : list Event) : nat :=
  length (List.filter is_build evs).

(** ** The list while a package is installed *)

(** The list after [n] firings of the interval, from progress [p]. *)
Fixpoint tick_updates (fname : string) (inc p : number) (n : nat)
    (pkgs : list GUIPackage) : list GUIPackage :=
  match n with
  | O => pkgs
  | S n =>
      let p' := next_progress inc p in
      tick_updates fname inc p' n
        (update_callback fname (props_progress (toFixed2 p')) pkgs)
  end.

(** The state that [installPkg] writes first, and the version it asks for. *)
Definition install_state (pkg : GUIPackage) : PackageStates :=
  if decide (state pkg = NEEDS_UPDATE) then UPDATING else INSTALLING.

(** The list while the native call is pending and the interval has fired. *)
Definition while_installing (env : Env) (pkg : GUIPackage)
    (pkgs : list GUIPackage) : list GUIPackage :=
  tick_updates (full_name pkg) (loader_increment pkg) (Finite 1)
    (install_ticks env)
    (update_callback (full_name pkg) (props_state (install_state pkg)) pkgs).

(** [installPkg] up to its [await]: the state is written and the native
    call is made. *)
Definition installPkg_started (pkg : GUIPackage) (wanted : option string) :
    M unit :=
  updatePackage (full_name pkg) (props_state (install_state pkg));;
  emit (Native_installPackage pkg (version_or wanted (version pkg))).

(** [installPkg] from there on: the interval fires while the call is
    pending, the call settles, and what is left of [try], then [catch]
    and [finally], is run. *)
Definition installPkg_resumed (env : Env) (pkg : GUIPackage)
    (wanted : option string) : M unit :=
  try_catch_finally
    (let fakeTimer :=
       withFakeLoader pkg (λ progress,
         updatePackage (full_name pkg) (props_progress progress)) in
     let v := version_or wanted (version pkg) in
     interval_runs (install_ticks env) fakeTimer;;
     run_callback (installPackage env pkg v);;
     emit (TrackInstall (full_name pkg));;
     updatePackage (full_name pkg) (props_state INSTALLED))
    (λ error, emit (TrackInstallFailed (full_name pkg) (failure_message error)))
    (updatePackage (full_name pkg) (props_progress (Finite 100))).

(** ** Concrete inputs *)

(** A package whose first bottle has 98304 bytes (96 KiB). *)
Definition small_bottle_pkg : GUIPackage :=
  {| name := "zlib"; full_name := "zlib.net"; version := "1.2.13";
     desc := ""; categories := [];
     bottles := Some [ {| bytes := 98304 |} ];
     state := AVAILABLE; installed_versions := None;
     install_progress_percentage := None |}.

Definition pkg_wget : Package.t :=
  {| Package.name := "wget"; Package.full_name := "gnu.org/wget";
     Package.version := "1.21.3"; Package.desc := "network downloader";
     Package.categories := ["net"]; Package.bottles := None |}.

Definition pkg_curl : Package.t :=
  {| Package.name := "curl"; Package.full_name := "curl.se";
     Package.version := "8.0.1"; Package.desc := "transfer tool";
     Package.categories := ["net"]; Package.bottles := None |}.

Definition pkg_gcc : Package.t :=
  {| Package.name := "gcc"; Package.full_name := "gnu.org/gcc";
     Package.version := "12.2.0"; Package.desc := "compiler collection";
     Package.categories := ["dev"]; Package.bottles := None |}.

(** A second catalog entry under the name of [pkg_wget]. *)
Definition pkg_wget_next : Package.t :=
  {| Package.name := "wget"; Package.full_name := "gnu.org/wget";
     Package.version := "1.21.4"; Package.desc := "network downloader";
     Package.categories := ["net"]; Package.bottles := None |}.

Definition installed_wget : InstalledPackage.t :=
  {| InstalledPackage.full_name := "gnu.org/wget";
     InstalledPackage.installed_versions := ["1.21.3"] |}.

Definition installed_curl : InstalledPackage.t :=
  {| InstalledPackage.full_name := "curl.se";
     InstalledPackage.installed_versions := ["7.88.0"] |}.

Definition example_catalog : list Package.t := [pkg_wget; pkg_curl; pkg_gcc].

Definition example_installed : list InstalledPackage.t :=
  [installed_wget; installed_curl].

(** Every call succeeds, the interval fires three times. *)
Definition quiet_env : Env :=
  {| getDistPackages := Ok example_catalog;
     getInstalledPackages := Ok example_installed;
     installPackage := λ _ _, Ok ();
     install_ticks := 3;
     syncProgress_subscribers := λ _, Ok () |}.

(** The catalog lists the name of [pkg_wget] twice. *)
Definition duplicate_env : Env :=
  {| getDistPackages := Ok [pkg_wget; pkg_wget_next];
     getInstalledPackages := Ok [installed_wget];
     installPackage := λ _ _, Ok ();
     install_ticks := 3;
     syncProgress_subscribers := λ _, Ok () |}.

(** The installed list cannot be fetched. *)
Definition offline_env : Env :=
  {| getDistPackages := Ok example_catalog;
     getInstalledPackages := Throw (ErrorObj "tea is not installed");
     installPackage := λ _ _, Ok ();
     install_ticks := 3;
     syncProgress_subscribers := λ _, Ok () |}.

(** A subscriber of [syncProgress] throws. *)
Definition loud_env : Env :=
  {| getDistPackages := Ok example_catalog;
     getInstalledPackages := Ok example_installed;
     installPackage := λ _ _, Ok ();
     install_ticks := 3;
     syncProgress_subscribers := λ _, Throw (ErrorObj "subscriber failed") |}.

(** The native install throws an [Error] without a message. *)
Definition failing_env : Env :=
  {| getDistPackages := Ok example_catalog;
     getInstalledPackages := Ok example_installed;
     installPackage := λ _ _, Throw (ErrorObj "");
     install_ticks := 3;
     syncProgress_subscribers := λ _, Ok () |}.

Definition fresh_world : World :=
  {| store := initPackagesStore; events := [] |}.

(** The store once [init] has run in [quiet_env], with an empty trace. *)
Definition ready_world : World :=
  {| store := store (init quiet_env fresh_world).2; events := [] |}.

Definition example_index : Fuse := newFuse (toGUI <$> example_catalog).

(** A matcher for the runs: the term starts the [full_name]. *)
Definition prefix_matcher : Matcher :=
  λ term r, if String.prefix term (key_full_name r) then Some 0%Q else None.

(** * The rest of the store *)

(** ** The other calls to the outside *)

(** What [getPackage] returns: "ATM: pkg only bottles and github:string". *)
Record PackageDetail := {
  detail_bottles : option (list Bottle);
  detail_github : option string
}.

(** The outcomes of the calls of "@native" that [init] and [installPkg]
    do not make.  Where the store runs in [M] these calls are not written
    to the trace. *)
Record Remote := {
  getPackage : string → result PackageDetail;
  getPackageBottles : string → result (list Bottle)
}.

(** ** [fetchPackageBottles] *)

(** [{ bottles }] *)
Definition props_bottles (fetched : list Bottle) : Partial.t :=
  {| Partial.name := None; Partial.full_name := None; Partial.version := None;
     Partial.desc := None; Partial.categories := None;
     Partial.bottles := Some fetched;
     Partial.state := None; Partial.installed_versions := None;
     Partial.install_progress_percentage := None |}.

Definition fetchPackageBottles (remote : Remote) (pkgName : string) : M unit :=
  fetched ← run_callback (getPackageBottles remote pkgName);
  updatePackage pkgName (props_bottles fetched).

(** ** [syncPackageData] and [subscribeToPackage] *)

(** [updatePackage], whatever the records and the properties are. *)
Definition update_by_name {A P} (name_of : A → string) (merge : A → P → A)
    (fname : string) (props : P) (pkgs : list A) : list A :=
  match list_find (λ pkg, name_of pkg = fname) pkgs with
  | Some (i, pkg) => <[i := merge pkg props]> pkgs
  | None => pkgs
  end.

Arguments update_by_name : simpl never.

(** [s.split(sep)] for a separator of one character. *)
Fixpoint split_on (sep : Ascii.ascii) (s : string) : list string :=
  match s with
  | EmptyString => [EmptyString]
  | String c rest =>
      if Ascii.eqb c sep then EmptyString :: split_on sep rest
      else match split_on sep rest with
           | part :: parts => String c part :: parts
           | [] => [String c EmptyString]
           end
  end.

(** A value inside a template literal. *)
Definition interpolated (value : option string) : string :=
  default "undefined" value.

(** The readme that [syncPackageData] writes itself: two lines, and the
    line break and the two tabs before the closing quote. *)
Definition readme_template (fname : string) (home : option string) : string :=
  String.concat EmptyString
    ["# "; fname; " #"; String "010"%char EmptyString;
     "To read more about this package go to ["; interpolated home; "](";
     interpolated home; ")."; String "010"%char EmptyString;
     String "009"%char EmptyString; String "009"%char EmptyString].

(** [await Promise.all([a, b, c])], the three calls being made: it gives
    the three values, or throws what one of the calls threw (here the
    first in the array; in the code the first in time). *)
Definition promise_all {A B C} (a : result A) (b : result B) (c : result C) :
    result (A * B * C) :=
  match a, b, c with
  | Ok x, Ok y, Ok z => Ok (x, y, z)
  | Throw e, _, _ => Throw e
  | _, Throw e, _ => Throw e
  | _, _, Throw e => Throw e
  end.

(** [{ ...pkg }] for the data of [getPackage]. *)
Definition props_of_detail (pkg : PackageDetail) : Partial.t :=
  {| Partial.name := None; Partial.full_name := None; Partial.version := None;
     Partial.desc := None; Partial.categories := None;
     Partial.bottles := detail_bottles pkg;
     Partial.state := None; Partial.installed_versions := None;
     Partial.install_progress_percentage := None |}.

Section sync.
Context (Contributor License : Type).

(** [syncPackageData] and [subscribeToPackage] read and write fields of a
    record that the rest of the store passes along untouched.
    [PackageData] is a record of the list with these fields next to those
    of [GUIPackage]; [synced] is false where the field is not set.  A
    contributor and a license are data of GitHub that the store hands on
    unread. *)
Record PackageData := {
  core : GUIPackage;
  slug : string;
  homepage : option string;
  synced : bool;
  readme_md : option string;
  github : option string;
  contributors : option (list Contributor);
  license : option License
}.

(** The properties that [syncPackageData] passes on.  A property that was
    assigned is written also when its value is undefined, as for the
    license of a repository without one. *)
Record DataProps := {
  core_props : Partial.t;
  readme_md_prop : option string;
  synced_prop : option bool;
  github_prop : option string;
  contributors_prop : option (list Contributor);
  license_prop : option (option License)
}.

(** [{ ...pkg, ...props }] *)
Definition spread_data (pkg : PackageData) (props : DataProps) : PackageData :=
  {| core := spread (core pkg) (core_props props);
     slug := slug pkg;
     homepage := homepage pkg;
     synced := default (synced pkg) (synced_prop props);
     readme_md := over (readme_md_prop props) (readme_md pkg);
     github := over (github_prop props) (github pkg);
     contributors := over (contributors_prop props) (contributors pkg);
     license := default (license pkg) (license_prop props) |}.

(** The calls of "$libs/github".  [owner] and [repo] are the first two
    parts of the [github] field, each undefined when there is no such
    part. *)
Record RepoData := { repo_license : option License }.

Record GitHub := {
  getReadme : option string → option string → result string;
  getContributors : option string → option string → result (list Contributor);
  getRepoAsPackage : option string → option string → result RepoData
}.

(** What is seen from outside: the calls that are made, the callback of
    a subscription being run, and a promise that nobody awaits being
    rejected. *)
Inductive Call :=
  | Call_getPackage (fname : string)
  | Call_getReadme (owner repo : option string)
  | Call_getContributors (owner repo : option string)
  | Call_getRepoAsPackage (owner repo : option string)
  | Called_back (foundPackage : PackageData)
  | Unhandled_rejection (e : JsThrown).

Record Page := { listed : list PackageData; calls : list Call }.

(** A computation on the list and the trace.  A subscriber runs again
    when it has updated the list itself, so a run is given a number of
    notifications that it may take; [None] is a run that has used them
    up. *)
Definition Sync (A : Type) : Type := Page → option (result A * Page).

Global Instance Sync_ret : MRet Sync := λ A a p, Some (Ok a, p).

Global Instance Sync_bind : MBind Sync := λ A B k m p,
  match m p with
  | Some (Ok a, p') => k a p'
  | Some (Throw e, p') => Some (Throw e, p')
  | None => None
  end.

Definition listing : Sync (list PackageData) := λ p, Some (Ok (listed p), p).

Definition call {A} (c : Call) (outcome : result A) : Sync A :=
  λ p, Some (outcome, {| listed := listed p; calls := calls p ++ [c] |}).

Definition settle {A} (outcome : result A) : Sync A := λ p, Some (outcome, p).

(** A call of an async function without [await]: when it throws, the
    caller carries on. *)
Definition unawaited (promise : Sync unit) : Sync unit :=
  λ p, match promise p with
       | Some (Throw e, p') =>
           Some (Ok (), {| listed := listed p';
                           calls := calls p' ++ [Unhandled_rejection e] |})
       | settled => settled
       end.

(** [updatePackage] on the records with their data.  [packages.update]
    runs the subscribers of the list before it returns. *)
Definition updatePackageData (subscribers : Sync unit) (fname : string)
    (props : DataProps) : Sync unit :=
  (λ p, Some (Ok (),
              {| listed := update_by_name (λ pkg, full_name (core pkg))
                             spread_data fname props (listed p);
                 calls := calls p |}));;
  subscribers.

Definition syncPackageData (native : Remote) (hub : GitHub)
    (subscribers : Sync unit) (guiPkg : option PackageData) : Sync unit :=
  match guiPkg with
  | None => mret ()
  | Some guiPkg =>
      if synced guiPkg then mret ()
      else
        let fname := full_name (core guiPkg) in
        pkg ← call (Call_getPackage fname) (getPackage native fname);
        let readmeMd := readme_template fname (homepage guiPkg) in
        let updatedPackage :=
          {| core_props := props_of_detail pkg;
             readme_md_prop := Some readmeMd;
             synced_prop := Some true;
             github_prop := detail_github pkg;
             contributors_prop := None;
             license_prop := None |} in
        updatedPackage ←
          match detail_github pkg with
          | Some gh =>
              if decide (gh = "") then mret updatedPackage
              else
                let parts := split_on "/"%char gh in
                let owner := parts !! 0 in
                let repo := parts !! 1 in
                call (Call_getReadme owner repo) (Ok ());;
                call (Call_getContributors owner repo) (Ok ());;
                call (Call_getRepoAsPackage owner repo) (Ok ());;
                '(readme, contributors, repoData) ←
                  settle (promise_all (getReadme hub owner repo)
                            (getContributors hub owner repo)
                            (getRepoAsPackage hub owner repo));
                mret {| core_props := props_of_detail pkg;
                        readme_md_prop :=
                          Some (if decide (readme = "") then readmeMd
                                else readme);
                        synced_prop := Some true;
                        github_prop := Some gh;
                        contributors_prop := Some contributors;
                        license_prop := Some (repo_license repoData) |}
          | None => mret updatedPackage
          end;
        updatePackageData subscribers fname updatedPackage
  end.

(** The subscriber that [subscribeToPackage] gives to
    [packages.subscribe], run on the list as it is: [subscribe] runs it at
    once, and every update of the list runs it again, also the update
    that the [syncPackageData] of the subscriber makes.  That sync is
    not awaited; it is run where it is started, with no other call in
    between. *)
Fixpoint subscribeToPackage (notifications : nat) (native : Remote)
    (hub : GitHub) (wanted : string) (cb : PackageData → result unit) :
    Sync unit :=
  match notifications with
  | O => λ _, None
  | S notifications =>
      pkgs ← listing;
      match list_find (λ p, slug p = wanted) pkgs with
      | Some (_, foundPackage) =>
          call (Called_back foundPackage) (cb foundPackage);;
          unawaited
            (syncPackageData native hub
               (subscribeToPackage notifications native hub wanted cb)
               (Some foundPackage))
      | None => mret ()
      end
  end.

End sync.

Arguments core {Contributor License} _.
Arguments slug {Contributor License} _.
Arguments homepage {Contributor License} _.
Arguments synced {Contributor License} _.
Arguments readme_md {Contributor License} _.
Arguments github {Contributor License} _.
Arguments contributors {Contributor License} _.
Arguments license {Contributor License} _.
Arguments spread_data {Contributor License} pkg props.
Arguments repo_license {License} _.
Arguments getReadme {Contributor License} _ owner repo.
Arguments getContributors {Contributor License} _ owner repo.
Arguments getRepoAsPackage {Contributor License} _ owner repo.
Arguments Call_getPackage {Contributor License} fname.
Arguments Call_getReadme {Contributor License} owner repo.
Arguments Call_getContributors {Contributor License} owner repo.
Arguments Call_getRepoAsPackage {Contributor License} owner repo.
Arguments Called_back {Contributor License} foundPackage.
Arguments Unhandled_rejection {Contributor License} e.
Arguments listed {Contributor License} _.
Arguments calls {Contributor License} _.
Arguments updatePackageData {Contributor License} subscribers fname props.
Arguments syncPackageData {Contributor License} native hub subscribers guiPkg.
Arguments subscribeToPackage {Contributor License} notifications native hub
  wanted cb.

(** ** Notions for the further statements *)

(** [x] is at position [i], the first element of [l] that has [P]. *)
Definition first_with {A} (P : A → Prop) (l : list A) (i : nat) (x : A) : Prop :=
  l !! i = Some x ∧ P x ∧ ∀ j y, l !! j = Some y → j < i → ¬ P y.

(** [{ ...first, ...second }] on two sets of properties. *)
Definition props_then (first second : Partial.t) : Partial.t :=
  {| Partial.name := over (Partial.name second) (Partial.name first);
     Partial.full_name :=
       over (Partial.full_name second) (Partial.full_name first);
     Partial.version := over (Partial.version second) (Partial.version first);
     Partial.desc := over (Partial.desc second) (Partial.desc first);
     Partial.categories :=
       over (Partial.categories second) (Partial.categories first);
     Partial.bottles := over (Partial.bottles second) (Partial.bottles first);
     Partial.state := over (Partial.state second) (Partial.state first);
     Partial.installed_versions :=
       over (Partial.installed_versions second)
            (Partial.installed_versions first);
     Partial.install_progress_percentage :=
       over (Partial.install_progress_percentage second)
            (Partial.install_progress_percentage first) |}.

(** Position [k] is the one that [updatePackage fname] writes to. *)
Definition targets (fname : string) (pkgs : list GUIPackage) (k : nat) : bool :=
  bool_decide (fst <$> list_find (λ p, full_name p = fname) pkgs = Some k).

(** The catalog has the tea CLI and the installed list has not. *)
Definition tea_missing (cat : list Package.t) (inst : list InstalledPackage.t) :
    bool :=
  bool_decide ("tea.xyz" ∈ Package.full_name <$> cat)
  && bool_decide ("tea.xyz" ∉ InstalledPackage.full_name <$> inst).

(** [g'] is [g] but for its state and its progress. *)
Definition kept (g g' : GUIPackage) : Prop :=
  name g' = name g ∧ full_name g' = full_name g ∧ version g' = version g ∧
  desc g' = desc g ∧ categories g' = categories g ∧ bottles g' = bottles g ∧
  installed_versions g' = installed_versions g.

(** A remote whose native calls all fail. *)
Definition unreachable : Remote :=
  {| getPackage := λ _, Throw (ErrorObj "offline");
     getPackageBottles := λ _, Throw (ErrorObj "offline") |}.

(** The catalog cannot be fetched. *)
Definition no_catalog_env : Env :=
  {| getDistPackages := Throw (ErrorObj "offline");
     getInstalledPackages := Ok example_installed;
     installPackage := λ _ _, Ok ();
     install_ticks := 3;
     syncProgress_subscribers := λ _, Ok () |}.

(** The catalog has the tea CLI, which is not installed. *)
Definition pkg_tea : Package.t :=
  {| Package.name := "tea"; Package.full_name := "tea.xyz";
     Package.version := "0.31.2"; Package.desc := "the tea CLI";
     Package.categories := ["dev"]; Package.bottles := None |}.

Definition tea_env : Env :=
  {| getDistPackages := Ok [pkg_wget; pkg_tea];
     getInstalledPackages := Ok [installed_wget];
     installPackage := λ _ _, Ok ();
     install_ticks := 3;
     syncProgress_subscribers := λ _, Ok () |}.

(** A remote that serves one bottle of 50 MiB for every package, and
    nothing else. *)
Definition bottle_mirror : Remote :=
  {| getPackage := λ _, Throw (ErrorObj "offline");
     getPackageBottles := λ _, Ok [ {| bytes := 52428800 |} ] |}.

(** A record of the list as [init] makes it, with a slug. *)
Definition with_slug (g : GUIPackage) (slug0 : string) :
    PackageData string string :=
  {| core := g; slug := slug0; homepage := Some ("https://" +:+ full_name g);
     synced := false; readme_md := None; github := None;
     contributors := None; license := None |}.

Definition data_wget : PackageData string string :=
  with_slug (toGUI pkg_wget) "gnu_org_wget".

Definition data_curl : PackageData string string :=
  with_slug (toGUI pkg_curl) "curl_se".

Definition example_page : Page string string :=
  {| listed := [data_wget; data_curl]; calls := [] |}.


(** A [getPackage] that gives a bottle and no repository. *)
Definition plain_remote : Remote :=
  {| getPackage := λ _, Ok {| detail_bottles := Some [ {| bytes := 52428800 |} ];
                              detail_github := None |};
     getPackageBottles := λ _, Ok [] |}.

(** A [getPackage] that gives a repository. *)
Definition github_remote : Remote :=
  {| getPackage := λ _, Ok {| detail_bottles := None;
                              detail_github := Some "curl/curl" |};
     getPackageBottles := λ _, Ok [] |}.

(** A repository without a readme. *)
Definition example_hub : GitHub string string :=
  {| getReadme := λ _ _, Ok "";
     getContributors := λ _ _, Ok ["bagder"];
     getRepoAsPackage := λ _ _, Ok {| repo_license := Some "curl" |} |}.

(** * Properties *)

(** Running the code of the monad: its operations are unfolded. *)
Ltac run :=
  unfold mbind, M_bind, mret, M_ret, try_catch_finally, try_catch, gets,
    modify, emit, await, run_callback, log_info, log_error, updatePackage;
  cbn.

(** ** Updating a record by name *)

Lemma list_find_first_named fname pkgs i pkg :
  list_find (λ p, full_name p = fname) pkgs = Some (i, pkg) ↔
  first_named fname pkgs i pkg.
Proof. unfold first_named. by rewrite list_find_Some. Qed.

Lemma first_named_unique fname pkgs i j p q :
  first_named fname pkgs i p → first_named fname pkgs j q → i = j ∧ p = q.
Proof.
  rewrite <- !list_find_first_named. intros Hi Hj.
  rewrite Hi in Hj. by inversion Hj.
Qed.

Lemma update_callback_found fname props pkgs i pkg :
  first_named fname pkgs i pkg →
  update_callback fname props pkgs = <[i := spread pkg props]> pkgs.
Proof.
  intros H. apply list_find_first_named in H.
  unfold update_callback. by rewrite H.
Qed.

Lemma update_callback_missing fname props pkgs :
  Forall (λ pkg, full_name pkg ≠ fname) pkgs →
  update_callback fname props pkgs = pkgs.
Proof.
  intros H. unfold update_callback.
  by rewrite (proj2 (list_find_None (λ p, full_name p = fname) pkgs) H).
Qed.

Lemma update_callback_length fname props pkgs :
  length (update_callback fname props pkgs) = length pkgs.
Proof.
  unfold update_callback.
  destruct (list_find _ pkgs) as [[i pkg]|]; [apply length_insert | done].
Qed.

(** C3. [updatePackage(full_name, props)] returns normally; it replaces
    the first record whose [full_name] matches with the merge of that
    record and [props]: each field has the value that [props] gives it
    when [props] has the field, and the value of the record otherwise.
    It keeps every other record and the length of the list, and keeps the
    whole list when no record matches. *)
Theorem updatePackage_replaces_first_match (fname : string) (props : Partial.t)
    (w : World) :
  let before := packages (store w) in
  let after := packages (store (updatePackage fname props w).2) in
  (updatePackage fname props w).1 = Ok tt ∧
  length after = length before ∧
  (∀ i pkg, first_named fname before i pkg →
     after !! i
     = Some {| name := match Partial.name props with
                       | Some x => x
                       | None => name pkg
                       end;
               full_name := match Partial.full_name props with
                            | Some x => x
                            | None => full_name pkg
                            end;
               version := match Partial.version props with
                          | Some x => x
                          | None => version pkg
                          end;
               desc := match Partial.desc props with
                       | Some x => x
                       | None => desc pkg
                       end;
               categories := match Partial.categories props with
                             | Some x => x
                             | None => categories pkg
                             end;
               bottles := match Partial.bottles props with
                          | Some x => Some x
                          | None => bottles pkg
                          end;
               state := match Partial.state props with
                        | Some x => x
                        | None => state pkg
                        end;
               installed_versions :=
                 match Partial.installed_versions props with
                 | Some x => Some x
                 | None => installed_versions pkg
                 end;
               install_progress_percentage :=
                 match Partial.install_progress_percentage props with
                 | Some x => Some x
                 | None => install_progress_percentage pkg
                 end |} ∧
     ∀ j, j ≠ i → after !! j = before !! j) ∧
  (Forall (λ pkg, full_name pkg ≠ fname) before → after = before).
Proof.
  cbn. split; [done|]. split; [apply update_callback_length|]. split.
  - intros i pkg Hfirst.
    rewrite (update_callback_found _ _ _ _ _ Hfirst).
    destruct Hfirst as (Hi & _ & _). split.
    + rewrite list_lookup_insert_eq by (by eapply lookup_lt_Some).
      f_equal. unfold spread, over, default.
      by destruct props as [[?|] [?|] [?|] [?|] [?|] [?|] [?|] [?|] [?|]].
    + intros j Hj. by apply list_lookup_insert_ne.
  - apply update_callback_missing.
Qed.

Lemma updatePackage_replaces_first_match_witness :
  packages (store (updatePackage "curl.se" (props_state INSTALLING)
                     ready_world).2) !! 1
  = Some (spread
            (spread (toGUI pkg_curl) (props_installed ["7.88.0"] NEEDS_UPDATE))
            (props_state INSTALLING)).
Proof.
  destruct (updatePackage_replaces_first_match "curl.se"
              (props_state INSTALLING) ready_world) as (_ & _ & Hfound & _).
  refine (proj1 (Hfound 1 _ _)). split; [reflexivity|]. split; [reflexivity|].
  intros [|[|k]] q Hq Hk; [|lia..].
  vm_compute in Hq. injection Hq as <-. discriminate.
Defined.

(** ** Searching *)

Lemma omap_length_le {A B} (f : A → option B) (l : list A) :
  length (omap f l) ≤ length l.
Proof.
  induction l as [|x l IH]; cbn; [done|].
  destruct (f x); cbn; lia.
Qed.

Lemma slice_limit_subseteq {A} (limit : Z) (l : list A) :
  slice_limit limit l ⊆ l.
Proof.
  unfold slice_limit. case_decide; [apply subseteq_take | done].
Qed.

Lemma slice_limit_length {A} (limit : Z) (l : list A) :
  (0 ≤ limit)%Z → (Z.of_nat (length (slice_limit limit l)) ≤ limit)%Z.
Proof.
  intros Hlimit. unfold slice_limit. case_decide; [|lia].
  rewrite length_take. lia.
Qed.

(** The matcher of Fuse.js is any function. *)
Section search.
Context (bitap : Matcher).

(** Every result of the index is the current document of a record that
    matches the term. *)
Lemma fuse_search_elem fuse docs term limit pkg :
  pkg ∈ fuse_search bitap fuse docs term limit →
  ∃ r, r ∈ records fuse ∧ is_Some (bitap term r) ∧ docs !! idx r = Some pkg.
Proof.
  unfold fuse_search. intros Hin.
  apply list_elem_of_omap in Hin as ([score n] & Hin & Hdoc).
  apply slice_limit_subseteq in Hin.
  rewrite merge_sort_Permutation in Hin.
  apply list_elem_of_omap in Hin as (r & Hr & Hscored).
  unfold scored in Hscored. destruct (bitap term r) eqn:Hmatch; [|done].
  exists r. cbn in *. by simplify_eq.
Qed.

Lemma fuse_search_length fuse docs term limit :
  (0 ≤ limit)%Z →
  (Z.of_nat (length (fuse_search bitap fuse docs term limit)) ≤ limit)%Z.
Proof.
  intros Hlimit. unfold fuse_search.
  etrans; [apply inj_le, omap_length_le|].
  by apply slice_limit_length.
Qed.

(** C10. [search] returns the empty list whenever the term is empty or
    the index has not been built, whatever the limit. *)
Theorem search_without_term_or_index (s : Store) (term : string)
    (limit : option Z) :
  term = "" ∨ packagesIndex s = None → search bitap s term limit = [].
Proof.
  unfold search. intros [-> | ->]; [|done].
  by destruct (packagesIndex s).
Qed.

(** Before [init] has run there is no index. *)
Lemma search_before_init term limit :
  search bitap initPackagesStore term limit = [].
Proof. done. Qed.

(** C7, as the code has it.  For a term that is not empty and a store
    whose index is built, every item that [search] returns is a record of
    the store's list (the array the index was built over), the document of
    an index record that matches the term; there are at most [limit] of
    them when [limit] is not negative, and at most 5 when no limit is
    given.  (Fuse.js does not cut the results for a limit below 0.) *)
Theorem search_within_catalog_and_limit (s : Store) (index : Fuse)
    (term : string) (limit : option Z) :
  term ≠ "" → packagesIndex s = Some index →
  (∀ pkg, pkg ∈ search bitap s term limit →
     pkg ∈ packages s ∧
     ∃ r, r ∈ records index ∧ is_Some (bitap term r) ∧
          packages s !! idx r = Some pkg) ∧
  (∀ n, limit = Some n → (0 ≤ n)%Z →
     (Z.of_nat (length (search bitap s term limit)) ≤ n)%Z) ∧
  (limit = None → length (search bitap s term limit) ≤ 5).
Proof.
  intros Hterm Hindex. unfold search. rewrite Hindex.
  destruct (decide (term = "")) as [|_]; [done|]. split; [|split].
  - intros pkg Hin. apply fuse_search_elem in Hin as (r & Hr & Hm & Hdoc).
    split; [by eapply list_elem_of_lookup_2 | eauto].
  - intros n -> Hn. cbn. by apply fuse_search_length.
  - intros ->. cbn.
    pose proof (fuse_search_length index (packages s) term 5) as H.
    lia.
Qed.

End search.

Lemma search_without_term_or_index_witness :
  search prefix_matcher initPackagesStore "gnu" None = [].
Proof. apply search_without_term_or_index. right. reflexivity. Defined.

Lemma search_within_catalog_and_limit_witness :
  (Z.of_nat (length (search prefix_matcher (store ready_world) "gnu"
                       (Some 1%Z))) ≤ 1)%Z.
Proof.
  destruct (search_within_catalog_and_limit prefix_matcher (store ready_world)
              example_index "gnu" (Some 1%Z)) as (_ & Hlimit & _).
  - discriminate.
  - reflexivity.
  - apply Hlimit; [reflexivity | lia].
Defined.

(** C7 as stated fails for a limit below 0: two packages are returned
    for the limit -1. *)
Lemma search_negative_limit_counterexample :
  search prefix_matcher (store ready_world) "gnu" (Some (-1)%Z)
  = [spread (toGUI pkg_wget) (props_installed ["1.21.3"] INSTALLED);
     toGUI pkg_gcc] ∧
  ¬ (Z.of_nat (length (search prefix_matcher (store ready_world) "gnu"
                         (Some (-1)%Z))) ≤ -1)%Z.
Proof.
  split; [vm_compute; reflexivity|].
  intros Hle. vm_compute in Hle. by apply Hle.
Qed.

(** ** The fake loader *)

Lemma eta_of_bottle_nonzero (bottle : Bottle) :
  bytes bottle ≠ 0%N → Qeq_bool (bytesQ bottle / (1024 * 1024 * 3)) 0 = false.
Proof.
  intros Hbytes. destruct (Qeq_bool _ 0) eqn:Heq; [|done].
  apply Qeq_bool_eq in Heq. exfalso. apply Hbytes.
  unfold bytesQ, Qeq in Heq. cbn in Heq.
  change (Qnum (/ (1024 * 1024 * 3))) with 1%Z in Heq. lia.
Qed.

(** C6. The increment of a tick is [1 / (size / assumedDlSpeedMb) / 10],
    with an assumed speed of 3 * 1024 * 1024 bytes per second; [size] is
    the byte size of the first bottle when the package has one, and
    otherwise ten times the speed, an ETA of 10 seconds and an increment
    of 0.01. *)
Theorem loader_increment_by_first_bottle (pkg : GUIPackage) :
  num_eq assumedDlSpeedMb (Finite 3145728) ∧
  loader_increment pkg =
    num_div (num_div (Finite 1) (num_div (loader_size pkg) assumedDlSpeedMb))
            (Finite 10) ∧
  (∀ cb, increment (withFakeLoader pkg cb) = loader_increment pkg) ∧
  (∀ bottle rest, bottles pkg = Some (bottle :: rest) →
     loader_size pkg = Finite (bytesQ bottle) ∧
     (bytes bottle ≠ 0%N →
      num_eq (loader_increment pkg)
             (Finite (1 / (bytesQ bottle / 3145728) / 10))) ∧
     (bytes bottle = 0%N → loader_increment pkg = NonFinite)) ∧
  (bottles pkg = None ∨ bottles pkg = Some [] →
     num_eq (loader_size pkg) (Finite 31457280) ∧
     num_eq (loader_eta pkg) (Finite 10) ∧
     num_eq (loader_increment pkg) (Finite 0.01)).
Proof.
  split; [done|]. split; [done|]. split; [done|]. split.
  - intros bottle rest Hbottles.
    unfold loader_increment, loader_eta, loader_size. rewrite Hbottles.
    split; [done|]. split.
    + intros Hbytes. cbn -[Qdiv Qmult].
      change (Qeq_bool (1024 * 1024 * 3) 0) with false. cbn -[Qdiv Qmult].
      fold (bytesQ bottle). rewrite (eta_of_bottle_nonzero _ Hbytes).
      cbn -[Qdiv Qmult]. change (Qeq_bool 10 0) with false.
      cbn -[Qdiv Qmult]. apply Qdiv_comp; [|done].
      apply Qdiv_comp; [done|]. by apply Qdiv_comp.
    + intros Hbytes. by rewrite Hbytes.
  - intros Hnone. unfold loader_increment, loader_eta, loader_size.
    by destruct Hnone as [-> | ->].
Qed.

Lemma loader_increment_by_first_bottle_witness :
  num_eq (loader_increment small_bottle_pkg)
         (Finite (1 / (98304 / 3145728) / 10)).
Proof.
  destruct (loader_increment_by_first_bottle small_bottle_pkg)
    as (_ & _ & _ & Hbottle & _).
  destruct (Hbottle {| bytes := 98304 |} [] eq_refl) as (_ & Hinc & _).
  apply Hinc. discriminate.
Defined.

Lemma loader_progress_finite (inc : Q) (n : nat) :
  loader_progress (Finite inc) n = Finite (progressQ inc n).
Proof.
  unfold loader_progress, progressQ.
  induction n as [|n IH]; [done|].
  rewrite !Nat.iter_succ, IH. done.
Qed.

(** Where the increment lies strictly between 0 and 1 the progress does
    climb at every tick and stays below 100. *)
Lemma progressQ_climbs (inc : Q) (n : nat) :
  (0 < inc)%Q → (inc < 1)%Q →
  (progressQ inc n < progressQ inc (S n))%Q ∧ (progressQ inc (S n) < 100)%Q.
Proof.
  intros Hpos Hlt.
  assert (Hbelow : ∀ k, (progressQ inc k < 100)%Q).
  { induction k as [|k IH]; [done|].
    unfold progressQ in *. rewrite Nat.iter_succ.
    set (p := Nat.iter k _ _) in *. nra. }
  split; [|apply Hbelow].
  specialize (Hbelow n). unfold progressQ in *. rewrite Nat.iter_succ.
  set (p := Nat.iter n _ _) in *. nra.
Qed.

(** The distance to 100 shrinks by the factor [1 - inc] at every tick,
    and falls below any bound. *)
Lemma progressQ_gap (inc : Q) (n : nat) :
  (100 - progressQ inc (S n) == (100 - progressQ inc n) * (1 - inc))%Q.
Proof.
  unfold progressQ. rewrite Nat.iter_succ. set (p := Nat.iter n _ _). ring.
Qed.

Lemma progressQ_below (inc : Q) (n : nat) :
  (0 < inc)%Q → (inc < 1)%Q → (progressQ inc n < 100)%Q.
Proof.
  intros Hpos Hlt. destruct n as [|n]; [done|].
  by apply progressQ_climbs.
Qed.

Lemma progressQ_gap_bound (inc : Q) (n : nat) :
  (0 < inc)%Q → (inc < 1)%Q →
  ((100 - progressQ inc n) * (1 + inject_Z (Z.of_nat n) * inc) <= 99)%Q.
Proof.
  intros Hpos Hlt. induction n as [|n IH].
  - change (progressQ inc 0) with 1%Q.
    change (inject_Z (Z.of_nat 0)) with 0%Q. lra.
  - rewrite progressQ_gap, Nat2Z.inj_succ, <- Z.add_1_r, inject_Z_plus.
    pose proof (progressQ_below inc n Hpos Hlt) as Hbelow.
    set (r := (100 - progressQ inc n)%Q) in *.
    set (m := inject_Z (Z.of_nat n)) in *.
    assert (Hm : (0 <= m)%Q).
    { unfold m. rewrite <- (Zle_Qle 0). lia. }
    assert (Hr : (0 <= r)%Q) by (unfold r; lra).
    assert (Hdrop : (0 <= r * ((m + 1) * (inc * inc)))%Q).
    { apply Qmult_le_0_compat; [done|].
      apply Qmult_le_0_compat; [lra|]. apply Qmult_le_0_compat; lra. }
    change (inject_Z 1) with 1%Q. nra.
Qed.

Lemma progressQ_approaches_100 (inc eps : Q) :
  (0 < inc)%Q → (inc < 1)%Q → (0 < eps)%Q →
  ∃ N, ∀ n, N ≤ n → (100 - eps < progressQ inc n)%Q.
Proof.
  intros Hpos Hlt Heps.
  set (x := (99 / (inc * eps))%Q).
  exists (Z.to_nat (Qceiling x) + 1). intros n Hn.
  pose proof (progressQ_gap_bound inc n Hpos Hlt) as Hbound.
  pose proof (progressQ_below inc n Hpos Hlt) as Hbelow.
  set (r := (100 - progressQ inc n)%Q) in *.
  set (m := inject_Z (Z.of_nat n)) in *.
  assert (Hprod : (0 < inc * eps)%Q) by (apply Qmult_lt_0_compat; lra).
  assert (Hm : (x < m)%Q).
  { apply Qle_lt_trans with (inject_Z (Qceiling x)); [apply Qle_ceiling|].
    unfold m. rewrite <- Zlt_Qlt. lia. }
  assert (Hlarge : (99 < m * (inc * eps))%Q).
  { assert (Heq : (99 == x * (inc * eps))%Q).
    { unfold x. field. split; lra. }
    rewrite Heq at 1. by apply Qmult_lt_compat_r. }
  destruct (Qlt_le_dec r eps) as [Hsmall | Hbig]; [unfold r in Hsmall; lra|].
  exfalso.
  assert (Hmi : (0 <= m * inc)%Q).
  { apply Qmult_le_0_compat; [|lra]. apply Qlt_le_weak.
    apply Qlt_trans with x; [|done]. unfold x. by apply Qlt_shift_div_l; lra. }
  assert (Hgrow : (0 <= (r - eps) * (m * inc))%Q).
  { apply Qmult_le_0_compat; lra. }
  nra.
Qed.

(** A bottle above 314572 bytes, or no bottle, gives such an increment. *)
Lemma loader_increment_below_one (pkg : GUIPackage) :
  match bottles pkg with
  | Some (bottle :: _) => (314572 < bytes bottle)%N
  | _ => True
  end →
  ∃ inc, loader_increment pkg = Finite inc ∧ (0 < inc)%Q ∧ (inc < 1)%Q.
Proof.
  unfold loader_increment, loader_eta, loader_size.
  destruct (bottles pkg) as [[|bottle rest]|]; intros Hsize.
  1, 3: by eexists; split; [reflexivity|].
  assert (Hbytes : bytes bottle ≠ 0%N) by lia.
  cbn -[Qdiv Qmult]. change (Qeq_bool (1024 * 1024 * 3) 0) with false.
  cbn -[Qdiv Qmult]. fold (bytesQ bottle).
  rewrite (eta_of_bottle_nonzero _ Hbytes).
  cbn -[Qdiv Qmult]. change (Qeq_bool 10 0) with false.
  eexists; split; [reflexivity|].
  assert (Hq : (314572 < bytesQ bottle)%Q).
  { unfold bytesQ, Qlt. cbn. lia. }
  assert (Heq : (1 / (bytesQ bottle / (1024 * 1024 * 3)) / 10
                 == 3145728 / (10 * bytesQ bottle))%Q).
  { field. intros H0. rewrite H0 in Hq. done. }
  rewrite Heq. split.
  - apply Qlt_shift_div_l; [lra|]. lra.
  - apply Qlt_shift_div_r; [lra|].
    assert (Hint : (314573 <= bytesQ bottle)%Q).
    { unfold bytesQ, Qle. cbn. lia. }
    lra.
Qed.

(** For such a package the progress, in exact arithmetic, climbs at
    every tick, stays below 100 and comes as close to 100 as one likes. *)
Lemma fake_loader_climbs_with_large_bottle (pkg : GUIPackage) :
  match bottles pkg with
  | Some (bottle :: _) => (314572 < bytes bottle)%N
  | _ => True
  end →
  ∃ inc,
    (∀ n, loader_progress (loader_increment pkg) n = Finite (progressQ inc n) ∧
          (progressQ inc n < progressQ inc (S n))%Q ∧
          (progressQ inc (S n) < 100)%Q) ∧
    (∀ eps, (0 < eps)%Q →
       ∃ N, ∀ n, N ≤ n → (100 - eps < progressQ inc n)%Q).
Proof.
  intros Hsize.
  destruct (loader_increment_below_one pkg Hsize) as (inc & -> & Hpos & Hlt).
  exists inc. split.
  - intros n. split; [apply loader_progress_finite|].
    by apply progressQ_climbs.
  - intros eps Heps. by apply progressQ_approaches_100.
Qed.

(** C2, at a package with a small first bottle.  The increment is 3.2:
    the first tick takes the progress from 1 to 317.8, above 100, and
    the second to -379.16, below the first; the callback is given these
    two values. *)
Theorem fake_loader_small_bottle_overshoots :
  ∃ p1 p2 : Q,
    num_eq (loader_increment small_bottle_pkg) (Finite 3.2) ∧
    num_eq (loader_progress (loader_increment small_bottle_pkg) 1)
           (Finite 317.8) ∧
    num_eq (loader_progress (loader_increment small_bottle_pkg) 2)
           (Finite (-379.16)) ∧
    reported_progress small_bottle_pkg 1 = Finite p1 ∧
    reported_progress small_bottle_pkg 2 = Finite p2 ∧
    (p1 == 317.8)%Q ∧ (p2 == -379.16)%Q ∧
    ¬ (p1 < 100)%Q ∧ (p2 < p1)%Q.
Proof.
  eexists _, _. split; [done|]. split; [done|]. split; [done|].
  split; [vm_compute; reflexivity|]. split; [vm_compute; reflexivity|].
  repeat split; done.
Qed.

(** ** The cross-referencing loop *)

Lemma set_packages_same (s : Store) : set_packages (packages s) s = s.
Proof. by destruct s. Qed.

Lemma set_syncProgress_same (s : Store) : set_syncProgress (syncProgress s) s = s.
Proof. by destruct s. Qed.

Lemma world_eta (w : World) : {| store := store w; events := events w |} = w.
Proof. by destruct w. Qed.

(** The update of one round, whether a record is found or not. *)
Lemma round_update_run (iPkg : InstalledPackage.t) (w : World) :
  match list_find (λ p, full_name p = InstalledPackage.full_name iPkg)
                  (packages (store w)) with
  | Some (_, pkg) => updatePackage (full_name pkg) (installed_props pkg iPkg)
  | None => mret ()
  end w =
  (Ok (), {| store := set_packages (crossref_step (packages (store w)) iPkg)
                                   (store w);
             events := events w |}).
Proof.
  unfold crossref_step.
  destruct (list_find _ (packages (store w))) as [[j pkg]|]; run; [done|].
  by rewrite set_packages_same, world_eta.
Qed.

Lemma syncProgress_set_run (env : Env) (v : Q) (w : World) :
  ∃ v', (syncProgress_set env v w).2 =
          {| store := set_syncProgress v' (store w); events := events w |} ∧
        ((∀ x, syncProgress_subscribers env x = Ok ()) →
         (syncProgress_set env v w).1 = Ok ()).
Proof.
  unfold syncProgress_set. run. destruct (Qeq_bool _ v).
  - exists (syncProgress (store w)).
    by rewrite set_syncProgress_same, world_eta.
  - exists v. split; [done|]. intros Hquiet. by rewrite Hquiet.
Qed.

Lemma for_installed_cons env len i iPkg rest w :
  for_installed env len i (iPkg :: rest) w =
  match syncProgress_set env
          (toFixed2Q (inject_Z (Z.of_nat (i + 1)) / inject_Z (Z.of_nat len)))
          {| store := set_packages (crossref_step (packages (store w)) iPkg)
                                   (store w);
             events := events w |} with
  | (Ok _, w2) => for_installed env len (S i) rest w2
  | (Throw e, w2) => (Throw e, w2)
  end.
Proof.
  cbn [for_installed]. unfold mbind at 1 2 3, M_bind, gets at 1.
  by rewrite round_update_run.
Qed.

Lemma for_installed_run env len i installedPkgs w :
  ∃ rounds progress,
    rounds `prefix_of` installedPkgs ∧
    (for_installed env len i installedPkgs w).2 =
      {| store := after_rounds (store w) rounds progress;
         events := events w |} ∧
    ((for_installed env len i installedPkgs w).1 = Ok () →
     rounds = installedPkgs) ∧
    ((∀ v, syncProgress_subscribers env v = Ok ()) →
     (for_installed env len i installedPkgs w).1 = Ok ()).
Proof.
  revert i w. induction installedPkgs as [|iPkg rest IH]; intros i w.
  - exists [], (syncProgress (store w)). unfold after_rounds. cbn.
    by rewrite set_packages_same, set_syncProgress_same, world_eta.
  - rewrite for_installed_cons.
    set (v := toFixed2Q _).
    set (w1 := {| store := set_packages _ _; events := _ |}).
    destruct (syncProgress_set_run env v w1) as (v' & Hw2 & Hquiet).
    destruct (syncProgress_set env v w1) as [[[]|e] w2]; cbn in Hw2; subst w2.
    + match goal with
      | |- context [for_installed env len (S i) rest ?w'] =>
          destruct (IH (S i) w')
            as (rounds & progress & Hprefix & Hw & Hall & Hok)
      end.
      exists (iPkg :: rounds), progress.
      split; [by apply prefix_cons|]. split; [by rewrite Hw|].
      split; [|exact Hok]. intros Hr. by rewrite (Hall Hr).
    + exists [iPkg], v'. split; [by apply prefix_cons, prefix_nil|].
      split; [done|]. split; [done|]. intros Hq. by specialize (Hquiet Hq).
Qed.

Lemma first_named_first_at n pkgs j g :
  first_named n pkgs j g ↔
  pkgs !! j = Some g ∧ first_at (full_name <$> pkgs) j n.
Proof.
  unfold first_named, first_at. rewrite list_lookup_fmap. split.
  - intros (Hj & Hn & Hfirst). rewrite Hj. cbn. split; [done|].
    split; [by rewrite Hn|]. intros k Hk. rewrite list_lookup_fmap.
    destruct (pkgs !! k) as [q|] eqn:Hq; cbn; [|done].
    intros [= Heq]. by eapply Hfirst.
  - intros (Hj & Hn & Hfirst). rewrite Hj in Hn. cbn in Hn.
    split; [done|]. split; [congruence|]. intros k q Hq Hk Heq.
    apply (Hfirst k Hk). by rewrite list_lookup_fmap, Hq, <- Heq.
Qed.

Lemma crossref_step_found pkgs iPkg j g :
  first_named (InstalledPackage.full_name iPkg) pkgs j g →
  crossref_step pkgs iPkg = <[j := spread g (installed_props g iPkg)]> pkgs.
Proof.
  intros Hfirst. unfold crossref_step.
  rewrite (proj2 (list_find_first_named _ _ _ _) Hfirst).
  apply update_callback_found.
  destruct Hfirst as (? & Hn & ?). by rewrite Hn.
Qed.

Lemma crossref_step_absent pkgs iPkg :
  list_find (λ p, full_name p = InstalledPackage.full_name iPkg) pkgs = None →
  crossref_step pkgs iPkg = pkgs.
Proof. intros H. unfold crossref_step. by rewrite H. Qed.

(** A round changes neither the names nor their order. *)
Lemma crossref_step_names pkgs iPkg :
  full_name <$> crossref_step pkgs iPkg = full_name <$> pkgs.
Proof.
  destruct (list_find (λ p, full_name p = InstalledPackage.full_name iPkg) pkgs)
    as [[j g]|] eqn:Hfind.
  - apply list_find_first_named in Hfind as Hfirst.
    rewrite (crossref_step_found _ _ _ _ Hfirst), list_fmap_insert.
    apply list_insert_id. rewrite list_lookup_fmap.
    destruct Hfirst as (-> & _). done.
  - by rewrite crossref_step_absent.
Qed.

Lemma crossref_fold_names pkgs rounds :
  full_name <$> foldl crossref_step pkgs rounds = full_name <$> pkgs.
Proof.
  revert pkgs. induction rounds as [|iPkg rest IH]; intros pkgs; [done|].
  cbn. by rewrite IH, crossref_step_names.
Qed.

(** A round leaves alone every position but the first one that bears
    the name of its entry. *)
Lemma crossref_step_other pkgs iPkg j :
  ¬ first_at (full_name <$> pkgs) j (InstalledPackage.full_name iPkg) →
  crossref_step pkgs iPkg !! j = pkgs !! j.
Proof.
  intros Hnot.
  destruct (list_find (λ p, full_name p = InstalledPackage.full_name iPkg) pkgs)
    as [[i g]|] eqn:Hfind; [|by rewrite crossref_step_absent].
  apply list_find_first_named in Hfind as Hfirst.
  rewrite (crossref_step_found _ _ _ _ Hfirst).
  apply list_lookup_insert_ne. intros ->.
  apply Hnot. by apply first_named_first_at in Hfirst as [_ ?].
Qed.

Lemma crossref_fold_other pkgs rounds j :
  Forall (λ iPkg, ¬ first_at (full_name <$> pkgs) j
                      (InstalledPackage.full_name iPkg)) rounds →
  foldl crossref_step pkgs rounds !! j = pkgs !! j.
Proof.
  revert pkgs. induction rounds as [|iPkg rest IH]; intros pkgs Hall; [done|].
  apply Forall_cons in Hall as [Hhead Hrest]. cbn.
  rewrite IH; [by apply crossref_step_other|].
  by rewrite crossref_step_names.
Qed.

Lemma cataloged_toGUI p : cataloged p (toGUI p).
Proof. done. Qed.

Lemma cataloged_spread p g iPkg :
  cataloged p g →
  spread g (installed_props g iPkg)
  = spread (toGUI p) (installed_props (toGUI p) iPkg) ∧
  cataloged p (spread g (installed_props g iPkg)).
Proof.
  unfold cataloged, installed_props. destruct g, p. cbn.
  intros [= -> -> -> -> -> -> ->]. done.
Qed.

Lemma crossref_step_cataloged cat pkgs iPkg :
  Forall2 cataloged cat pkgs → Forall2 cataloged cat (crossref_step pkgs iPkg).
Proof.
  intros Hcat.
  destruct (list_find (λ p, full_name p = InstalledPackage.full_name iPkg) pkgs)
    as [[j g]|] eqn:Hfind; [|by rewrite crossref_step_absent].
  apply list_find_first_named in Hfind as Hfirst.
  rewrite (crossref_step_found _ _ _ _ Hfirst).
  destruct Hfirst as (Hj & _).
  destruct (Forall2_lookup_r _ _ _ _ _ Hcat Hj) as (p & Hp & Hpg).
  rewrite <- (list_insert_id cat j p Hp).
  apply Forall2_insert; [done|]. by apply cataloged_spread.
Qed.

Lemma crossref_fold_cataloged cat pkgs rounds :
  Forall2 cataloged cat pkgs →
  Forall2 cataloged cat (foldl crossref_step pkgs rounds).
Proof.
  revert pkgs. induction rounds as [|iPkg rest IH]; intros pkgs Hcat; [done|].
  cbn. by apply IH, crossref_step_cataloged.
Qed.

(** ** Running [init] *)

Lemma init_fresh env cat w :
  initialized (store w) = false → getDistPackages env = Ok cat →
  init env w =
  match crossReference env cat (catalog_set cat w) with
  | (Ok _, w') =>
      (Ok (), add_events [LogInfo "packages store: initialized!" []] w')
  | (Throw e, w') =>
      (Ok (), add_events [LogError e;
                          LogInfo "packages store: initialized!" []] w')
  end.
Proof.
  intros Hfresh Hdist. unfold init, init_resumed. run.
  rewrite Hfresh, Hdist. cbn.
  rewrite length_fmap, <- !app_assoc. cbn [app]. fold (catalog_set cat w).
  destruct (crossReference env cat (catalog_set cat w)) as [[[]|e] w'];
    unfold emit, add_events; cbn; [done|].
  by rewrite <- app_assoc.
Qed.

Lemma init_fetch_fails env e w :
  initialized (store w) = false → getDistPackages env = Throw e →
  init env w =
  (Throw e,
   {| store := set_initialized true (store w);
      events := events w ++
        [LogInfo "packages store: try initialize" [];
         LogInfo "packages store: initializing..." [];
         Native_getDistPackages] |}).
Proof.
  intros Hfresh Hdist. unfold init, init_resumed. run.
  rewrite Hfresh, Hdist. cbn. by rewrite <- !app_assoc.
Qed.

Lemma init_again env w :
  initialized (store w) = true →
  init env w =
  (Ok (), add_events [LogInfo "packages store: try initialize" [];
                      LogInfo "packages store: initialized!" []] w).
Proof.
  intros Hinit. unfold init. run. rewrite Hinit. cbn.
  unfold emit, add_events. cbn. by rewrite <- !app_assoc.
Qed.

Lemma tea_check_run cat inst w :
  ∃ flag logs,
    tea_check cat inst w =
      (Ok (), {| store := set_requireTeaCli flag (store w);
                 events := events w ++ logs |}) ∧
    only_logs logs.
Proof.
  unfold tea_check, checkTeaCLIPackage.
  destruct (list_find _ cat) as [[? teaPkg]|].
  - destruct (list_find _ inst) as [[? installed]|]; run.
    + exists (requireTeaCli (store w)). eexists [_]. split.
      * by destruct w as [[] ?].
      * repeat constructor. eauto.
    + exists true, []. split; [by rewrite app_nil_r | constructor].
  - exists (requireTeaCli (store w)), []. run.
    split; [by destruct w as [[] ?]; rewrite app_nil_r | constructor].
Qed.

Lemma crossReference_fetched env cat inst w :
  getInstalledPackages env = Ok inst →
  crossReference env cat w =
  for_installed env (length inst) 0 inst (loop_entered cat inst w).
Proof.
  intros Hinst. unfold crossReference, loop_entered.
  destruct (tea_check_run cat inst
    (add_events [Native_getInstalledPackages;
                 LogInfo "sync test for tea-cli" []] w))
    as (flag & logs & Heq & _).
  rewrite Heq. unfold tea_check, add_events in Heq.
  unfold mbind, M_bind, await, log_info, emit. rewrite Hinst. cbn.
  rewrite <- app_assoc. cbn [app]. by rewrite Heq.
Qed.

Lemma crossReference_fetch_fails env cat e w :
  getInstalledPackages env = Throw e →
  crossReference env cat w =
  (Throw e, add_events [Native_getInstalledPackages] w).
Proof. intros Hinst. unfold crossReference. run. by rewrite Hinst. Qed.

Lemma loop_entered_run cat inst w :
  ∃ flag logs,
    loop_entered cat inst w =
      {| store := set_requireTeaCli flag (store w);
         events := events w ++ Native_getInstalledPackages :: logs |} ∧
    only_logs logs.
Proof.
  unfold loop_entered.
  destruct (tea_check_run cat inst
    (add_events [Native_getInstalledPackages;
                 LogInfo "sync test for tea-cli" []] w))
    as (flag & logs & -> & Hlogs).
  exists flag. eexists (_ :: logs ++ [_]). unfold add_events. cbn. split.
  - by rewrite <- !app_assoc.
  - constructor; [eauto|]. apply Forall_app. split; [done|].
    repeat constructor. eauto.
Qed.

(** ** The state of the packages after [init] *)

Lemma catalog_names (cat : list Package.t) :
  full_name <$> (toGUI <$> cat) = Package.full_name <$> cat.
Proof. rewrite <- list_fmap_compose. done. Qed.

Lemma first_in_catalog_first_at cat j p :
  first_in_catalog cat j p ↔
  cat !! j = Some p ∧
  first_at (Package.full_name <$> cat) j (Package.full_name p).
Proof.
  unfold first_in_catalog, first_at. rewrite list_lookup_fmap. split.
  - intros (Hj & Hfirst). rewrite Hj. split; [done|]. split; [done|].
    intros k Hk. rewrite list_lookup_fmap.
    destruct (cat !! k) as [q|] eqn:Hq; cbn; [|done].
    intros [= Heq]. by eapply Hfirst.
  - intros (Hj & _ & Hfirst). split; [done|]. intros k q Hq Hk Heq.
    apply (Hfirst k Hk). by rewrite list_lookup_fmap, Hq, <- Heq.
Qed.

Lemma cross_referenced_cataloged cat inst :
  Forall2 cataloged cat (cross_referenced cat inst).
Proof.
  apply crossref_fold_cataloged, Forall2_fmap_r, Forall_Forall2_diag.
  apply Forall_forall. intros p _. apply cataloged_toGUI.
Qed.

Lemma cross_referenced_names cat inst :
  full_name <$> cross_referenced cat inst = Package.full_name <$> cat.
Proof. unfold cross_referenced. by rewrite crossref_fold_names, catalog_names. Qed.

(** The first record of a name gets what the last entry of that name
    says. *)
Lemma cross_referenced_installed cat inst j p iPkg :
  first_in_catalog cat j p →
  last_installed inst (Package.full_name p) iPkg →
  cross_referenced cat inst !! j
  = Some (spread (toGUI p) (installed_props (toGUI p) iPkg)).
Proof.
  intros Hfirst (Hname & before & after & -> & Hafter).
  apply first_in_catalog_first_at in Hfirst as [Hj Hat].
  unfold cross_referenced. rewrite foldl_app. cbn.
  fold (cross_referenced cat before).
  pose proof (cross_referenced_cataloged cat before) as Hcat.
  destruct (Forall2_lookup_l _ _ _ _ _ Hcat Hj) as (g & Hg & Hpg).
  assert (Hnamed : first_named (InstalledPackage.full_name iPkg)
                     (cross_referenced cat before) j g).
  { apply first_named_first_at. split; [done|].
    by rewrite cross_referenced_names, Hname. }
  rewrite crossref_fold_other.
  - rewrite (crossref_step_found _ _ _ _ Hnamed).
    rewrite list_lookup_insert_eq by (by eapply lookup_lt_Some).
    f_equal. by apply cataloged_spread.
  - rewrite crossref_step_names, cross_referenced_names.
    eapply Forall_impl; [exact Hafter|]. cbn. intros later Hlater [Hn _].
    destruct Hat as [Hp _]. congruence.
Qed.

(** A record whose name is not installed, or is a later duplicate, stays
    as the catalog gave it. *)
Lemma cross_referenced_available cat inst j p :
  cat !! j = Some p →
  Forall (λ iPkg, InstalledPackage.full_name iPkg ≠ Package.full_name p) inst
  ∨ ¬ first_in_catalog cat j p →
  cross_referenced cat inst !! j = Some (toGUI p).
Proof.
  intros Hj Hwhy. unfold cross_referenced. rewrite crossref_fold_other.
  - by rewrite list_lookup_fmap, Hj.
  - rewrite catalog_names. apply Forall_forall. intros iPkg Hin Hat.
    assert (Hsame : InstalledPackage.full_name iPkg = Package.full_name p).
    { destruct Hat as [Hn _]. rewrite list_lookup_fmap, Hj in Hn.
      by inversion Hn. }
    destruct Hwhy as [Hnone | Hdup].
    + by eapply Forall_forall in Hnone.
    + apply Hdup, first_in_catalog_first_at. by rewrite <- Hsame.
Qed.

Lemma after_rounds_nil (s : Store) :
  after_rounds (set_requireTeaCli (requireTeaCli s) s) [] (syncProgress s) = s.
Proof. by destruct s. Qed.

(** Everything the body of [try] can do, whichever step throws. *)
Lemma crossReference_run env cat w :
  ∃ rounds progress flag logs,
    (crossReference env cat w).2 =
      {| store := after_rounds (set_requireTeaCli flag (store w)) rounds progress;
         events := events w ++ Native_getInstalledPackages :: logs |} ∧
    only_logs logs ∧
    match getInstalledPackages env with
    | Ok inst =>
        rounds `prefix_of` inst ∧
        ((crossReference env cat w).1 = Ok () → rounds = inst) ∧
        ((∀ v, syncProgress_subscribers env v = Ok ()) →
         (crossReference env cat w).1 = Ok ())
    | Throw e => rounds = [] ∧ (crossReference env cat w).1 = Throw e
    end.
Proof.
  destruct (getInstalledPackages env) as [inst|e] eqn:Hinst.
  - rewrite (crossReference_fetched _ _ _ _ Hinst).
    destruct (loop_entered_run cat inst w) as (flag & logs & -> & Hlogs).
    destruct (for_installed_run env (length inst) 0 inst
      {| store := set_requireTeaCli flag (store w);
         events := events w ++ Native_getInstalledPackages :: logs |})
      as (rounds & progress & Hprefix & -> & Hall & Hok).
    by exists rounds, progress, flag, logs.
  - rewrite (crossReference_fetch_fails _ _ _ _ Hinst).
    exists [], (syncProgress (store w)), (requireTeaCli (store w)), [].
    cbn. rewrite after_rounds_nil. repeat split; constructor.
Qed.

Lemma init_completes env cat inst w :
  initialized (store w) = false →
  getDistPackages env = Ok cat → getInstalledPackages env = Ok inst →
  (∀ v, syncProgress_subscribers env v = Ok ()) →
  (init env w).1 = Ok () ∧
  packages (store (init env w).2) = cross_referenced cat inst.
Proof.
  intros Hfresh Hdist Hinst Hquiet. rewrite (init_fresh _ _ _ Hfresh Hdist).
  destruct (crossReference_run env cat (catalog_set cat w))
    as (rounds & progress & flag & logs & Hw & _ & Hcase).
  rewrite Hinst in Hcase. destruct Hcase as (_ & Hall & Hok).
  specialize (Hok Hquiet).
  destruct (crossReference env cat (catalog_set cat w)) as [[[]|e] w'];
    cbn in Hok, Hw; [|done].
  rewrite (Hall eq_refl) in Hw. by subst w'.
Qed.

(** C1, as the code has it.  When [init] runs on a fresh store, both
    fetches succeed and the loop runs through: the first catalog package
    of each [full_name] that the installed list has carries the
    [installed_versions] of the last installed entry of that name, with
    state [INSTALLED] when the catalog version is that entry's first
    installed version and [NEEDS_UPDATE] otherwise; every other catalog
    package, one whose name is not installed or that repeats an earlier
    name, is the catalog record in state [AVAILABLE]. *)
Theorem init_annotates_installed_packages (env : Env) (cat : list Package.t)
    (inst : list InstalledPackage.t) (w : World) :
  initialized (store w) = false →
  getDistPackages env = Ok cat → getInstalledPackages env = Ok inst →
  (∀ v, syncProgress_subscribers env v = Ok ()) →
  let pkgs := packages (store (init env w).2) in
  (init env w).1 = Ok () ∧
  (∀ j p iPkg,
     first_in_catalog cat j p →
     last_installed inst (Package.full_name p) iPkg →
     ∃ g, pkgs !! j = Some g ∧
          full_name g = Package.full_name p ∧
          installed_versions g
          = Some (InstalledPackage.installed_versions iPkg) ∧
          state g =
            (if decide (head (InstalledPackage.installed_versions iPkg)
                        = Some (Package.version p))
             then INSTALLED else NEEDS_UPDATE)) ∧
  (∀ j p,
     cat !! j = Some p →
     Forall (λ iPkg, InstalledPackage.full_name iPkg ≠ Package.full_name p) inst
     ∨ ¬ first_in_catalog cat j p →
     pkgs !! j = Some (toGUI p) ∧ state (toGUI p) = AVAILABLE).
Proof.
  intros Hfresh Hdist Hinst Hquiet.
  destruct (init_completes _ _ _ _ Hfresh Hdist Hinst Hquiet) as [Hok Hpkgs].
  cbn zeta. rewrite Hpkgs. split; [done|]. split.
  - intros j p iPkg Hfirst Hlast. eexists. split.
    + by apply cross_referenced_installed.
    + cbn. unfold is_first_version. split; [done|]. split; [done|].
      by destruct (decide _); [rewrite bool_decide_eq_true_2
                              | rewrite bool_decide_eq_false_2].
  - intros j p Hj Hwhy. split; [by apply cross_referenced_available | done].
Qed.

Lemma init_annotates_installed_packages_witness :
  ∃ g, packages (store (init quiet_env fresh_world).2) !! 1 = Some g ∧
       full_name g = "curl.se" ∧
       installed_versions g = Some ["7.88.0"] ∧
       state g = NEEDS_UPDATE.
Proof.
  destruct (init_annotates_installed_packages quiet_env example_catalog
              example_installed fresh_world)
    as (_ & Hinstalled & _); [reflexivity | reflexivity | reflexivity | |].
  - intros v. reflexivity.
  - apply (Hinstalled 1 pkg_curl installed_curl).
    + split; [reflexivity|]. intros [|[|k]] q Hq Hk; [|lia..].
      injection Hq as <-. discriminate.
    + split; [reflexivity|]. exists [installed_wget], []. split; [reflexivity|].
      constructor.
Defined.

(** C1 as stated fails on a catalog that lists a name twice: the second
    record of "gnu.org/wget" is left without the installed versions. *)
Lemma init_duplicate_name_counterexample :
  ¬ (∀ j g iPkg,
       packages (store (init duplicate_env fresh_world).2) !! j = Some g →
       iPkg ∈ [installed_wget] →
       InstalledPackage.full_name iPkg = full_name g →
       installed_versions g
       = Some (InstalledPackage.installed_versions iPkg) ∧
       state g =
         (if decide (head (InstalledPackage.installed_versions iPkg)
                     = Some (version g))
          then INSTALLED else NEEDS_UPDATE)).
Proof.
  intros Hclaim.
  destruct (Hclaim 1 (toGUI pkg_wget_next) installed_wget) as [Hversions _].
  - vm_compute. reflexivity.
  - by left.
  - reflexivity.
  - discriminate Hversions.
Qed.

(** ** Errors while cross-referencing *)

(** C4, as the code has it.  On a fresh store whose catalog fetch
    succeeded, [init] returns normally whatever the cross-referencing
    phase does, with the catalog set.  When the fetch of the installed
    list throws, every catalog package is left in state [AVAILABLE] and
    the error is logged.  When a later step throws, the error is logged
    too and the store stays as that step left it: the rounds of the loop
    that were already done keep their effect. *)
Theorem init_catches_cross_reference_errors (env : Env) (cat : list Package.t)
    (w : World) :
  initialized (store w) = false → getDistPackages env = Ok cat →
  let final := (init env w).2 in
  (init env w).1 = Ok () ∧
  full_name <$> packages (store final) = Package.full_name <$> cat ∧
  (∀ e, getInstalledPackages env = Throw e →
     packages (store final) = toGUI <$> cat ∧
     Forall (λ g, state g = AVAILABLE) (packages (store final)) ∧
     LogError e ∈ events final) ∧
  (∀ inst, getInstalledPackages env = Ok inst →
     ∃ rounds, rounds `prefix_of` inst ∧
               packages (store final) = cross_referenced cat rounds) ∧
  (∀ e w', crossReference env cat (catalog_set cat w) = (Throw e, w') →
     store final = store w' ∧ LogError e ∈ events final).
Proof.
  intros Hfresh Hdist. cbn zeta. rewrite (init_fresh _ _ _ Hfresh Hdist).
  destruct (crossReference_run env cat (catalog_set cat w))
    as (rounds & progress & flag & logs & Hw & _ & Hcase).
  assert (Hpkgs : packages (store (crossReference env cat (catalog_set cat w)).2)
                  = cross_referenced cat rounds) by by rewrite Hw.
  destruct (crossReference env cat (catalog_set cat w)) as [r w'] eqn:Hrun.
  cbn in Hw, Hpkgs, Hcase.
  split; [by destruct r|]. split.
  { destruct r; cbn; rewrite Hpkgs; apply cross_referenced_names. }
  split; [|split].
  - intros e He. rewrite He in Hcase. destruct Hcase as [-> ->]. cbn.
    rewrite Hpkgs. split; [done|]. split.
    + apply Forall_fmap, Forall_forall. by intros p _.
    + apply elem_of_app. right. by left.
  - intros inst Hinst. rewrite Hinst in Hcase. destruct Hcase as (Hprefix & _).
    exists rounds. split; [done|]. by destruct r; cbn; rewrite Hpkgs.
  - intros e w'' [= -> ->]. cbn. split; [done|].
    apply elem_of_app. right. by left.
Qed.

Lemma init_catches_cross_reference_errors_witness :
  (init offline_env fresh_world).1 = Ok () ∧
  Forall (λ g, state g = AVAILABLE)
         (packages (store (init offline_env fresh_world).2)) ∧
  LogError (ErrorObj "tea is not installed")
  ∈ events (init offline_env fresh_world).2.
Proof.
  destruct (init_catches_cross_reference_errors offline_env example_catalog
              fresh_world)
    as (Hok & _ & Hfetch & _); [reflexivity | reflexivity |].
  destruct (Hfetch (ErrorObj "tea is not installed")) as (_ & Hall & Hlog);
    [reflexivity|].
  exact (conj Hok (conj Hall Hlog)).
Defined.

(** C4 as stated fails when a step of the loop throws after an update:
    the error is caught and logged, and the first package stays
    [INSTALLED]. *)
Lemma init_throw_in_loop_counterexample :
  (init loud_env fresh_world).1 = Ok () ∧
  events (init loud_env fresh_world).2
  = [LogInfo "packages store: try initialize" [];
     LogInfo "packages store: initializing..." [];
     Native_getDistPackages;
     LogInfo "initialized packages store with " [ArgNat 3];
     NewFuse 3;
     LogInfo "initialized packages fuse index" [];
     Native_getInstalledPackages;
     LogInfo "sync test for tea-cli" [];
     LogInfo "set NEEDS_UPDATE state to pkgs" [];
     LogError (ErrorObj "subscriber failed");
     LogInfo "packages store: initialized!" []] ∧
  state <$> packages (store (init loud_env fresh_world).2)
  = [INSTALLED; AVAILABLE; AVAILABLE] ∧
  ¬ Forall (λ g, state g = AVAILABLE)
           (packages (store (init loud_env fresh_world).2)).
Proof.
  split; [vm_compute; reflexivity|]. split; [vm_compute; reflexivity|].
  split; [vm_compute; reflexivity|].
  intros Hall. apply (Forall_fmap state (λ st, st = AVAILABLE)) in Hall.
  assert (Hstates : state <$> packages (store (init loud_env fresh_world).2)
                    = [INSTALLED; AVAILABLE; AVAILABLE])
    by (vm_compute; reflexivity).
  rewrite Hstates in Hall. by apply Forall_inv in Hall.
Qed.

(** ** Searching after [init] *)

(** The index that [init] leaves is the one built over the catalog. *)
Lemma init_indexes_catalog env cat w :
  initialized (store w) = false → getDistPackages env = Ok cat →
  packagesIndex (store (init env w).2) = Some (newFuse (toGUI <$> cat)) ∧
  full_name <$> packages (store (init env w).2) = Package.full_name <$> cat.
Proof.
  intros Hfresh Hdist. rewrite (init_fresh _ _ _ Hfresh Hdist).
  destruct (crossReference_run env cat (catalog_set cat w))
    as (rounds & progress & flag & logs & Hw & _ & _).
  destruct (crossReference env cat (catalog_set cat w)) as [r w'].
  cbn in Hw. subst w'.
  destruct r; cbn; (split; [done|]); apply cross_referenced_names.
Qed.

(** After [init], what [search] returns are the store's records of
    catalog entries, each at the position of its entry. *)
Lemma search_after_init bitap env cat w term limit pkg :
  initialized (store w) = false → getDistPackages env = Ok cat →
  pkg ∈ search bitap (store (init env w).2) term limit →
  ∃ j p, cat !! j = Some p ∧
         packages (store (init env w).2) !! j = Some pkg ∧
         full_name pkg = Package.full_name p.
Proof.
  intros Hfresh Hdist Hin.
  destruct (init_indexes_catalog env cat w Hfresh Hdist) as [Hindex Hnames].
  unfold search in Hin. rewrite Hindex in Hin.
  destruct (decide (term = "")); [by apply elem_of_nil in Hin|].
  apply fuse_search_elem in Hin as (r & _ & _ & Hdoc).
  assert (Hname : (full_name <$> packages (store (init env w).2)) !! idx r
                  = Some (full_name pkg)) by by rewrite list_lookup_fmap, Hdoc.
  rewrite Hnames, list_lookup_fmap in Hname.
  destruct (cat !! idx r) as [p|] eqn:Hp; [|done].
  exists (idx r), p. by inversion Hname.
Qed.

(** ** Calling [init] again *)

Lemma fetches_app evs evs' : fetches (evs ++ evs') = fetches evs + fetches evs'.
Proof. unfold fetches. by rewrite List.filter_app, length_app. Qed.

Lemma builds_app evs evs' : builds (evs ++ evs') = builds evs + builds evs'.
Proof. unfold builds. by rewrite List.filter_app, length_app. Qed.

Lemma only_logs_counts logs : only_logs logs → fetches logs = 0 ∧ builds logs = 0.
Proof.
  unfold fetches, builds.
  by induction 1 as [|ev logs (msg & args & ->) _ [IHf IHb]].
Qed.

Lemma init_started_initialized w : initialized (store (init_started w).2) = true.
Proof.
  unfold init_started. run.
  destruct (initialized (store w)) eqn:Hinit; cbn; [|done].
  by rewrite Hinit.
Qed.

(** A call continues from where [init_started] left the world. *)
Lemma init_from_started env w :
  init env w =
  (if initialized (store w)
   then log_info "packages store: initialized!" []
   else init_resumed env;; log_info "packages store: initialized!" [])
    (init_started w).2.
Proof.
  unfold init, init_started. run.
  destruct (initialized (store w)); cbn; [done|].
  by destruct (init_resumed env _) as [[[]|e] w'].
Qed.

(** After a call, however it went, the store is marked initialized; the
    call added the two idle lines if the store was initialized already,
    and otherwise one fetch and at most one index. *)
Lemma init_trace env w :
  initialized (store (init env w).2) = true ∧
  ∃ added,
    events (init env w).2 = events w ++ added ∧
    if initialized (store w) then added = idle_log
    else fetches added = 1 ∧ builds added ≤ 1.
Proof.
  destruct (initialized (store w)) eqn:Hinit.
  - rewrite (init_again _ _ Hinit). split; [done|]. by eexists.
  - destruct (getDistPackages env) as [cat|e] eqn:Hdist.
    + rewrite (init_fresh _ _ _ Hinit Hdist).
      destruct (crossReference_run env cat (catalog_set cat w))
        as (rounds & progress & flag & logs & Hw & Hlogs & _).
      destruct (only_logs_counts _ Hlogs) as [Hf Hb].
      destruct (crossReference env cat (catalog_set cat w)) as [r w'].
      cbn in Hw. subst w'.
      split; [by destruct r|].
      destruct r; cbn -[fetches builds]; rewrite <- !app_assoc;
        (eexists; split; [reflexivity|]);
        change (Native_getInstalledPackages :: logs)
          with ([Native_getInstalledPackages] ++ logs);
        rewrite !fetches_app, !builds_app, Hf, Hb; cbn; lia.
    + rewrite (init_fetch_fails _ _ _ Hinit Hdist). split; [done|].
      eexists. split; [reflexivity|]. cbn. lia.
Qed.

Lemma init_calls_idle envs w :
  initialized (store w) = true →
  init_calls envs w = add_events (envs ≫= λ _, idle_log) w.
Proof.
  revert w. induction envs as [|env rest IH]; intros w Hinit.
  - unfold add_events. cbn. by rewrite app_nil_r, world_eta.
  - cbn [init_calls]. rewrite (init_again _ _ Hinit). cbn [snd].
    rewrite IH by done. unfold add_events. cbn. by rewrite <- app_assoc.
Qed.

Lemma init_calls_counts envs w :
  fetches (events (init_calls envs w))
  ≤ fetches (events w) + (if initialized (store w) then 0 else 1) ∧
  builds (events (init_calls envs w))
  ≤ builds (events w) + (if initialized (store w) then 0 else 1).
Proof.
  revert w. induction envs as [|env rest IH]; intros w.
  { cbn [init_calls]. destruct (initialized (store w)); lia. }
  cbn [init_calls]. destruct (IH (init env w).2) as [IHf IHb].
  destruct (init_trace env w) as (Hmark & added & Hadded & Hcount).
  rewrite Hmark, Hadded in IHf, IHb.
  rewrite fetches_app in IHf. rewrite builds_app in IHb.
  destruct (initialized (store w)).
  - subst added. change (fetches idle_log) with 0 in IHf.
    change (builds idle_log) with 0 in IHb. lia.
  - destruct Hcount. lia.
Qed.

(** C9. A call of [init] on a store marked initialized returns normally
    and does nothing but log its two lines: no fetch, no new index, no
    change of the store.  The store is so marked by a call that has
    completed, or has only started; so any number of later calls do
    nothing more, and on a store instance the catalog is fetched, and
    an index built, at most once. *)
Theorem init_idempotent (first later : Env) (envs : list Env) (w : World) :
  (∀ w1, initialized (store w1) = true →
         init later w1 = (Ok (), add_events idle_log w1)) ∧
  init later (init first w).2 = (Ok (), add_events idle_log (init first w).2) ∧
  init later (init_started w).2
  = (Ok (), add_events idle_log (init_started w).2) ∧
  init_calls envs (init first w).2
  = add_events (envs ≫= λ _, idle_log) (init first w).2 ∧
  fetches (events (init_calls envs {| store := initPackagesStore;
                                     events := [] |})) ≤ 1 ∧
  builds (events (init_calls envs {| store := initPackagesStore;
                                    events := [] |})) ≤ 1.
Proof.
  split; [apply init_again|].
  split; [apply init_again, init_trace|].
  split; [apply init_again, init_started_initialized|].
  split; [apply init_calls_idle, init_trace|].
  apply (init_calls_counts envs {| store := initPackagesStore; events := [] |}).
Qed.

(** ** Running [installPkg] *)

Lemma updatePackage_run fname props w :
  updatePackage fname props w =
  (Ok (), {| store := set_packages
                        (update_callback fname props (packages (store w)))
                        (store w);
             events := events w |}).
Proof. done. Qed.

Lemma interval_runs_run fname inc p n w :
  ∃ t,
    interval_runs n
      {| increment := inc; fakeLoadingProgress := p;
         callback := λ progress, updatePackage fname (props_progress progress) |}
      w
    = (Ok t, {| store := set_packages
                           (tick_updates fname inc p n (packages (store w)))
                           (store w);
                events := events w |}).
Proof.
  revert p w. induction n as [|n IH]; intros p w.
  - eexists. run. by rewrite set_packages_same, world_eta.
  - cbn [interval_runs tick_updates].
    unfold interval_fires, mbind, M_bind, mret, M_ret.
    cbn [callback increment fakeLoadingProgress].
    rewrite updatePackage_run. cbv beta iota.
    match goal with
    | |- context [interval_runs n ?t ?w'] =>
        destruct (IH (next_progress inc p) w') as [t' ->]
    end.
    by eexists.
Qed.

Lemma installPkg_run env pkg wanted w :
  installPkg env pkg wanted w =
  let v := version_or wanted (version pkg) in
  let pkgs := while_installing env pkg (packages (store w)) in
  match installPackage env pkg v with
  | Ok _ =>
      (Ok (),
       {| store :=
            set_packages
              (update_callback (full_name pkg) (props_progress (Finite 100))
                 (update_callback (full_name pkg) (props_state INSTALLED) pkgs))
              (store w);
          events := events w ++ [Native_installPackage pkg v;
                                 TrackInstall (full_name pkg)] |})
  | Throw e =>
      (Ok (),
       {| store :=
            set_packages
              (update_callback (full_name pkg) (props_progress (Finite 100))
                 pkgs)
              (store w);
          events := events w ++ [Native_installPackage pkg v;
                                 TrackInstallFailed (full_name pkg)
                                   (failure_message e)] |})
  end.
Proof.
  unfold installPkg, withFakeLoader, while_installing.
  unfold try_catch_finally, try_catch, mbind, M_bind, emit, run_callback.
  fold (install_state pkg). rewrite !updatePackage_run. cbv beta iota.
  match goal with
  | |- context [interval_runs _ ?t ?w'] =>
      destruct (interval_runs_run (full_name pkg) (loader_increment pkg)
                  (Finite 1) (install_ticks env) w') as [t' ->]
  end.
  cbn. destruct (installPackage env pkg _) as [[]|e]; cbn;
    by rewrite <- app_assoc.
Qed.

(** An update that does not rename keeps the first record of the name
    in its place. *)
Lemma update_callback_first_named fname props pkgs j g :
  Partial.full_name props = None →
  first_named fname pkgs j g →
  first_named fname (update_callback fname props pkgs) j (spread g props).
Proof.
  intros Hkeep Hfirst. rewrite (update_callback_found _ _ _ _ _ Hfirst).
  destruct Hfirst as (Hj & Hn & Hbefore). split; [|split].
  - apply list_lookup_insert_eq. by eapply lookup_lt_Some.
  - cbn. by rewrite Hkeep.
  - intros k q Hk Hlt. rewrite list_lookup_insert_ne in Hk by lia. eauto.
Qed.

Lemma tick_updates_first_named fname inc p n pkgs j g :
  first_named fname pkgs j g →
  ∃ g', first_named fname (tick_updates fname inc p n pkgs) j g' ∧
        state g' = state g.
Proof.
  revert p pkgs g. induction n as [|n IH]; intros p pkgs g Hfirst; [by eauto|].
  cbn [tick_updates].
  apply (update_callback_first_named _
           (props_progress (toFixed2 (next_progress inc p)))) in Hfirst;
    [|done].
  destruct (IH (next_progress inc p) _ _ Hfirst) as (g' & Hg' & Hstate).
  eauto.
Qed.

Lemma while_installing_first_named env pkg pkgs j g :
  first_named (full_name pkg) pkgs j g →
  ∃ g', first_named (full_name pkg) (while_installing env pkg pkgs) j g' ∧
        state g' = install_state pkg.
Proof.
  intros Hfirst. unfold while_installing.
  apply (update_callback_first_named _ (props_state (install_state pkg)))
    in Hfirst; [|done].
  destruct (tick_updates_first_named _ (loader_increment pkg) (Finite 1)
              (install_ticks env) _ _ _ Hfirst) as (g' & Hg' & Hstate).
  eauto.
Qed.

(** [installPkg] is its start, up to the native call being made, and
    then the rest. *)
Lemma installPkg_from_started env pkg wanted w :
  installPkg env pkg wanted w
  = installPkg_resumed env pkg wanted (installPkg_started pkg wanted w).2.
Proof. done. Qed.

(** C5, as the code has it.  [installPkg] first writes, to the store's
    record of [pkg.full_name], the state [UPDATING] when [pkg.state] is
    [NEEDS_UPDATE] and [INSTALLING] otherwise; it then calls the native
    [installPackage] with the version it was given when that is a string
    that is not empty, and with [pkg.version] when it was given none or
    the empty string; everything else that [installPkg] does comes after
    that, from the store so written; when the call succeeds it returns
    with the record in state [INSTALLED], and when the call fails the
    record is left in the state that was written first. *)
Theorem installPkg_sets_state_then_installs (env : Env) (pkg : GUIPackage)
    (wanted : option string) (w : World) :
  let v := version_or wanted (version pkg) in
  let started := (installPkg_started pkg wanted w).2 in
  let final := (installPkg env pkg wanted w).2 in
  (∀ x, wanted = Some x → x ≠ "" → v = x) ∧
  (wanted = None ∨ wanted = Some "" → v = version pkg) ∧
  installPkg env pkg wanted w = installPkg_resumed env pkg wanted started ∧
  events started = events w ++ [Native_installPackage pkg v] ∧
  (∀ j g, first_named (full_name pkg) (packages (store w)) j g →
     ∃ g', packages (store started) !! j = Some g' ∧
           state g' = if decide (state pkg = NEEDS_UPDATE) then UPDATING
                      else INSTALLING) ∧
  (installPackage env pkg v = Ok () →
     (installPkg env pkg wanted w).1 = Ok () ∧
     events final = events started ++ [TrackInstall (full_name pkg)] ∧
     ∀ j g, first_named (full_name pkg) (packages (store w)) j g →
       ∃ g', packages (store final) !! j = Some g' ∧ state g' = INSTALLED) ∧
  (∀ e, installPackage env pkg v = Throw e →
     ∀ j g, first_named (full_name pkg) (packages (store w)) j g →
       ∃ g', packages (store final) !! j = Some g' ∧
             state g' = if decide (state pkg = NEEDS_UPDATE) then UPDATING
                        else INSTALLING).
Proof.
  cbn zeta. split; [|split; [|split; [|split; [|split; [|split]]]]].
  - intros x -> Hx. unfold version_or. by destruct (decide (x = "")).
  - by intros [-> | ->].
  - apply installPkg_from_started.
  - done.
  - intros j g Hfirst.
    apply (update_callback_first_named _ (props_state (install_state pkg)))
      in Hfirst as (Hj & _); [|done].
    eexists. split; [exact Hj | done].
  - intros Hok. rewrite installPkg_run. cbn zeta. rewrite Hok.
    split; [done|]. split.
    { change (events (installPkg_started pkg wanted w).2)
        with (events w ++ [Native_installPackage pkg
                             (version_or wanted (version pkg))]).
      by rewrite <- app_assoc. }
    intros j g Hfirst. cbn.
    destruct (while_installing_first_named env pkg _ _ _ Hfirst)
      as (g1 & Hg1 & _).
    apply (update_callback_first_named _ (props_state INSTALLED))
      in Hg1; [|done].
    apply (update_callback_first_named _ (props_progress (Finite 100)))
      in Hg1 as (Hj & _); [|done].
    eexists. split; [exact Hj | done].
  - intros e Hfail j g Hfirst. rewrite installPkg_run. cbn zeta.
    rewrite Hfail. cbn.
    destruct (while_installing_first_named env pkg _ _ _ Hfirst)
      as (g1 & Hg1 & Hstate).
    apply (update_callback_first_named _ (props_progress (Finite 100)))
      in Hg1 as (Hj & _); [|done].
    eexists. split; [exact Hj | done].
Qed.

Lemma installPkg_sets_state_then_installs_witness :
  ∃ g, packages (store (installPkg quiet_env (toGUI pkg_gcc) None
                          ready_world).2) !! 2 = Some g ∧
       state g = INSTALLED.
Proof.
  destruct (installPkg_sets_state_then_installs quiet_env (toGUI pkg_gcc) None
              ready_world) as (_ & _ & _ & _ & _ & Hdone & _).
  destruct (Hdone eq_refl) as (_ & _ & Hrecord).
  apply (Hrecord 2 (toGUI pkg_gcc)).
  split; [reflexivity|]. split; [reflexivity|].
  intros [|[|k]] q Hq Hk; [| |lia];
    vm_compute in Hq; injection Hq as <-; discriminate.
Defined.

(** C5 as stated fails for the empty string as version: the native call
    gets [pkg.version]. *)
Lemma installPkg_empty_version_counterexample :
  events (installPkg quiet_env (toGUI pkg_gcc) (Some "") ready_world).2
  = [Native_installPackage (toGUI pkg_gcc) "12.2.0";
     TrackInstall "gnu.org/gcc"] ∧
  Native_installPackage (toGUI pkg_gcc) ""
  ∉ events (installPkg quiet_env (toGUI pkg_gcc) (Some "") ready_world).2.
Proof.
  assert (Hevents :
    events (installPkg quiet_env (toGUI pkg_gcc) (Some "") ready_world).2
    = [Native_installPackage (toGUI pkg_gcc) "12.2.0";
       TrackInstall "gnu.org/gcc"]) by (vm_compute; reflexivity).
  split; [done|]. rewrite Hevents. intros Hin.
  apply elem_of_cons in Hin as [Hin | Hin]; [discriminate Hin|].
  apply elem_of_cons in Hin as [Hin | Hin]; [discriminate Hin|].
  by apply elem_of_nil in Hin.
Qed.

(** C8, as the code has it.  [installPkg] returns normally whatever the
    native call does, with the progress of the record at 100.  When the
    call throws, [trackInstallFailed] is given the package name and the
    message of the error, or "Unknown Error" for a thrown value that is no
    [Error], or "unknown" for an [Error] whose message is empty; the
    record stays in the state written at the start, [INSTALLING] or
    [UPDATING]. *)
Theorem installPkg_reports_failure (env : Env) (pkg : GUIPackage)
    (wanted : option string) (w : World) :
  let v := version_or wanted (version pkg) in
  let final := (installPkg env pkg wanted w).2 in
  (installPkg env pkg wanted w).1 = Ok () ∧
  (∀ j g, first_named (full_name pkg) (packages (store w)) j g →
     ∃ g', packages (store final) !! j = Some g' ∧
           install_progress_percentage g' = Some (Finite 100)) ∧
  (∀ e, installPackage env pkg v = Throw e →
     events final = events w ++ [Native_installPackage pkg v;
                                 TrackInstallFailed (full_name pkg)
                                   (failure_message e)] ∧
     (∀ m, e = ErrorObj m → m ≠ "" → failure_message e = m) ∧
     (e = ErrorObj "" → failure_message e = "unknown") ∧
     (∀ shown, e = NonError shown → failure_message e = "Unknown Error") ∧
     ∀ j g, first_named (full_name pkg) (packages (store w)) j g →
       ∃ g', packages (store final) !! j = Some g' ∧
             state g' = if decide (state pkg = NEEDS_UPDATE) then UPDATING
                        else INSTALLING).
Proof.
  cbn zeta. rewrite installPkg_run. cbn zeta. split; [|split].
  - by destruct (installPackage env pkg _).
  - intros j g Hfirst.
    destruct (while_installing_first_named env pkg _ _ _ Hfirst)
      as (g1 & Hg1 & _).
    destruct (installPackage env pkg _); cbn.
    + apply (update_callback_first_named _ (props_state INSTALLED))
        in Hg1; [|done].
      apply (update_callback_first_named _ (props_progress (Finite 100)))
        in Hg1 as (Hj & _); [|done].
      eexists. split; [exact Hj | done].
    + apply (update_callback_first_named _ (props_progress (Finite 100)))
        in Hg1 as (Hj & _); [|done].
      eexists. split; [exact Hj | done].
  - intros e ->. cbn. split; [done|]. split; [|split; [|split]].
    + intros m -> Hm. unfold failure_message. by destruct (decide (m = "")).
    + by intros ->.
    + by intros shown ->.
    + intros j g Hfirst.
      destruct (while_installing_first_named env pkg _ _ _ Hfirst)
        as (g1 & Hg1 & Hstate).
      apply (update_callback_first_named _ (props_progress (Finite 100)))
        in Hg1 as (Hj & _); [|done].
      eexists. split; [exact Hj | done].
Qed.

Lemma installPkg_reports_failure_witness :
  ∃ g, packages (store (installPkg failing_env (toGUI pkg_gcc) None
                          ready_world).2) !! 2 = Some g ∧
       state g = INSTALLING.
Proof.
  destruct (installPkg_reports_failure failing_env (toGUI pkg_gcc) None
              ready_world) as (_ & _ & Hthrown).
  destruct (Hthrown (ErrorObj "") eq_refl) as (_ & _ & _ & _ & Hrecord).
  apply (Hrecord 2 (toGUI pkg_gcc)).
  split; [reflexivity|]. split; [reflexivity|].
  intros [|[|k]] q Hq Hk; [| |lia];
    vm_compute in Hq; injection Hq as <-; discriminate.
Defined.

(** C8 as stated fails for an [Error] whose message is empty:
    [trackInstallFailed] is given "unknown". *)
Lemma installPkg_empty_message_counterexample :
  installPackage failing_env (toGUI pkg_gcc) "12.2.0" = Throw (ErrorObj "") ∧
  events (installPkg failing_env (toGUI pkg_gcc) None ready_world).2
  = [Native_installPackage (toGUI pkg_gcc) "12.2.0";
     TrackInstallFailed "gnu.org/gcc" "unknown"] ∧
  TrackInstallFailed "gnu.org/gcc" ""
  ∉ events (installPkg failing_env (toGUI pkg_gcc) None ready_world).2.
Proof.
  assert (Hevents :
    events (installPkg failing_env (toGUI pkg_gcc) None ready_world).2
    = [Native_installPackage (toGUI pkg_gcc) "12.2.0";
       TrackInstallFailed "gnu.org/gcc" "unknown"]) by (vm_compute; reflexivity).
  split; [done|]. split; [done|]. rewrite Hevents. intros Hin.
  apply elem_of_cons in Hin as [Hin | Hin]; [discriminate Hin|].
  apply elem_of_cons in Hin as [Hin | Hin]; [discriminate Hin|].
  by apply elem_of_nil in Hin.
Qed.

(** * Further properties *)

(** ** How updates compose *)

Lemma update_callback_lookup fname props pkgs k :
  update_callback fname props pkgs !! k
  = (λ g, if targets fname pkgs k then spread g props else g) <$> pkgs !! k.
Proof.
  unfold update_callback, targets.
  destruct (list_find _ pkgs) as [[i g]|] eqn:Hfind; cbn.
  - apply list_find_Some in Hfind as (Hi & _).
    destruct (decide (i = k)) as [->|Hne].
    + rewrite list_lookup_insert_eq by (by eapply lookup_lt_Some).
      by rewrite Hi, bool_decide_eq_true_2.
    + rewrite list_lookup_insert_ne by done.
      rewrite bool_decide_eq_false_2 by congruence.
      by destruct (pkgs !! k).
  - by destruct (pkgs !! k).
Qed.

(** What is written to depends on the names only. *)
Lemma targets_names fname pkgs pkgs' k :
  full_name <$> pkgs = full_name <$> pkgs' →
  targets fname pkgs k = targets fname pkgs' k.
Proof.
  intros Hnames. unfold targets.
  assert (Hfind : ∀ l : list GUIPackage,
    fst <$> list_find (λ p, full_name p = fname) l
    = fst <$> list_find (λ n, n = fname) (full_name <$> l)).
  { intros l. rewrite list_find_fmap.
    by destruct (list_find _ l) as [[]|]. }
  by rewrite !Hfind, Hnames.
Qed.

Lemma update_callback_names fname props pkgs :
  Partial.full_name props = None →
  full_name <$> update_callback fname props pkgs = full_name <$> pkgs.
Proof.
  intros Hkeep. apply list_eq. intros k.
  rewrite !list_lookup_fmap, update_callback_lookup.
  destruct (pkgs !! k) as [g|]; [|done]. cbn.
  destruct (targets fname pkgs k); [|done]. cbn. by rewrite Hkeep.
Qed.

Lemma spread_then g first second :
  spread (spread g first) second = spread g (props_then first second).
Proof. destruct first, second. unfold spread, props_then. cbn.
  f_equal; by repeat match goal with
                   | |- context [default _ ?o] => is_var o; destruct o
                   | |- context [over ?o _] => is_var o; destruct o
                   end.
Qed.

(** X1. Two updates of the same package, the first of which does not
    rename it, are one update with the properties of the second laid over
    those of the first. *)
Theorem updatePackage_twice (fname : string) (first second : Partial.t)
    (w : World) :
  Partial.full_name first = None →
  (updatePackage fname first;; updatePackage fname second) w
  = updatePackage fname (props_then first second) w.
Proof.
  intros Hkeep. unfold mbind, M_bind. rewrite !updatePackage_run. cbn.
  set (pkgs := packages (store w)).
  assert (Hlist : update_callback fname second (update_callback fname first pkgs)
                  = update_callback fname (props_then first second) pkgs).
  { apply list_eq. intros k. rewrite !update_callback_lookup.
    rewrite (targets_names fname (update_callback fname first pkgs) pkgs)
      by by apply update_callback_names.
    destruct (pkgs !! k) as [g|]; [|done]. cbn.
    destruct (targets fname pkgs k); [|done]. by rewrite spread_then. }
  by rewrite Hlist.
Qed.

Lemma updatePackage_twice_witness :
  (updatePackage "curl.se" (props_state INSTALLING);;
   updatePackage "curl.se" (props_progress (Finite 50))) ready_world
  = updatePackage "curl.se"
      (props_then (props_state INSTALLING) (props_progress (Finite 50)))
      ready_world.
Proof. apply updatePackage_twice. reflexivity. Defined.

(** X2. Updates of two different packages, neither of which renames,
    can be made in either order. *)
Theorem updatePackage_commutes (fname fname' : string) (props props' : Partial.t)
    (w : World) :
  fname ≠ fname' →
  Partial.full_name props = None → Partial.full_name props' = None →
  (updatePackage fname props;; updatePackage fname' props') w
  = (updatePackage fname' props';; updatePackage fname props) w.
Proof.
  intros Hne Hkeep Hkeep'. unfold mbind, M_bind. rewrite !updatePackage_run. cbn.
  set (pkgs := packages (store w)).
  assert (Hlist : update_callback fname' props' (update_callback fname props pkgs)
                  = update_callback fname props (update_callback fname' props' pkgs)).
  { apply list_eq. intros k. rewrite !update_callback_lookup.
    rewrite (targets_names fname' (update_callback fname props pkgs) pkgs)
      by by apply update_callback_names.
    rewrite (targets_names fname (update_callback fname' props' pkgs) pkgs)
      by by apply update_callback_names.
    destruct (pkgs !! k) as [g|]; [|done]. cbn.
    destruct (targets fname pkgs k) eqn:Ht;
      destruct (targets fname' pkgs k) eqn:Ht'; try done.
    exfalso. unfold targets in Ht, Ht'.
    apply bool_decide_eq_true in Ht, Ht'.
    destruct (list_find (λ p, full_name p = fname) pkgs)
      as [[i a]|] eqn:Hfind; [|done].
    destruct (list_find (λ p, full_name p = fname') pkgs)
      as [[j b]|] eqn:Hfind'; [|done].
    cbn in Ht, Ht'. simplify_eq.
    apply list_find_Some in Hfind as (Ha & Hna & _).
    apply list_find_Some in Hfind' as (Hb & Hnb & _).
    congruence. }
  by rewrite Hlist.
Qed.

Lemma updatePackage_commutes_witness :
  (updatePackage "curl.se" (props_state INSTALLING);;
   updatePackage "gnu.org/gcc" (props_progress (Finite 50))) ready_world
  = (updatePackage "gnu.org/gcc" (props_progress (Finite 50));;
     updatePackage "curl.se" (props_state INSTALLING)) ready_world.
Proof.
  apply updatePackage_commutes; [discriminate | reflexivity | reflexivity].
Defined.

(** ** What [installPkg] leaves alone *)

Lemma kept_refl g : kept g g.
Proof. by repeat split. Qed.

Lemma kept_trans g1 g2 g3 : kept g1 g2 → kept g2 g3 → kept g1 g3.
Proof. unfold kept. intros (?&?&?&?&?&?&?) (?&?&?&?&?&?&?). repeat split; congruence. Qed.

Lemma first_named_insert fname pkgs i g g1 :
  first_named fname pkgs i g → full_name g1 = fname →
  first_named fname (<[i := g1]> pkgs) i g1.
Proof.
  intros (Hi & _ & Hbefore) Hname. split; [|split; [done|]].
  - apply list_lookup_insert_eq. by eapply lookup_lt_Some.
  - intros k q Hk Hlt. rewrite list_lookup_insert_ne in Hk by lia. eauto.
Qed.

Lemma update_callback_insert fname props pkgs i g g1 :
  first_named fname pkgs i g → full_name g1 = fname →
  update_callback fname props (<[i := g1]> pkgs)
  = <[i := spread g1 props]> pkgs.
Proof.
  intros Hfirst Hname.
  rewrite (update_callback_found _ _ _ i g1)
    by by eapply first_named_insert.
  apply list_insert_insert_eq.
Qed.

Lemma tick_updates_insert fname inc p n pkgs i g g1 :
  first_named fname pkgs i g → full_name g1 = fname →
  ∃ g', tick_updates fname inc p n (<[i := g1]> pkgs) = <[i := g']> pkgs ∧
        kept g1 g'.
Proof.
  intros Hfirst. revert p g1. induction n as [|n IH]; intros p g1 Hname.
  - exists g1. split; [done | apply kept_refl].
  - cbn [tick_updates]. rewrite (update_callback_insert _ _ _ _ _ _ Hfirst Hname).
    destruct (IH (next_progress inc p)
                (spread g1 (props_progress (toFixed2 (next_progress inc p)))))
      as (g' & -> & Hkept); [done|].
    exists g'. split; [done|]. eapply kept_trans; [|exact Hkept].
    by repeat split.
Qed.

Lemma tick_updates_missing fname inc p n pkgs :
  Forall (λ g, full_name g ≠ fname) pkgs →
  tick_updates fname inc p n pkgs = pkgs.
Proof.
  intros Hmissing. revert p. induction n as [|n IH]; intros p; [done|].
  cbn [tick_updates]. by rewrite update_callback_missing, IH.
Qed.

(** X3. Whatever the native call does, [installPkg] replaces the first
    record named [pkg.full_name] by one that differs from it in state and
    progress only (the installed versions and the version stay as they
    were), and changes nothing else in the store. *)
Theorem installPkg_writes_one_record (env : Env) (pkg : GUIPackage)
    (wanted : option string) (w : World) (i : nat) (g : GUIPackage) :
  first_named (full_name pkg) (packages (store w)) i g →
  ∃ g', store (installPkg env pkg wanted w).2
        = set_packages (<[i := g']> (packages (store w))) (store w) ∧
        kept g g'.
Proof.
  intros Hfirst. rewrite installPkg_run. cbn zeta. unfold while_installing.
  rewrite (update_callback_found _ _ _ _ _ Hfirst).
  destruct (tick_updates_insert (full_name pkg) (loader_increment pkg)
              (Finite 1) (install_ticks env) _ _ _
              (spread g (props_state (install_state pkg))) Hfirst)
    as (g1 & -> & Hkept1); [by destruct Hfirst as (_ & ? & _)|].
  assert (Hname1 : full_name g1 = full_name pkg).
  { destruct Hkept1 as (_ & -> & _). by destruct Hfirst as (_ & ? & _). }
  assert (Hkept : kept g g1).
  { eapply kept_trans; [|exact Hkept1]. by repeat split. }
  destruct (installPackage env pkg _) as [[]|e]; cbn.
  - rewrite (update_callback_insert _ _ _ _ _ _ Hfirst Hname1).
    rewrite (update_callback_insert _ _ _ _ _ _ Hfirst) by done.
    eexists. split; [done|]. eapply kept_trans; [exact Hkept|].
    by repeat split.
  - rewrite (update_callback_insert _ _ _ _ _ _ Hfirst Hname1).
    eexists. split; [done|]. eapply kept_trans; [exact Hkept|].
    by repeat split.
Qed.

Lemma installPkg_writes_one_record_witness :
  ∃ g', store (installPkg failing_env (toGUI pkg_gcc) None ready_world).2
        = set_packages (<[2 := g']> (packages (store ready_world)))
                       (store ready_world) ∧
        kept (toGUI pkg_gcc) g'.
Proof.
  apply (installPkg_writes_one_record failing_env (toGUI pkg_gcc) None
           ready_world 2 (toGUI pkg_gcc)).
  split; [reflexivity|]. split; [reflexivity|].
  intros [|[|k]] q Hq Hk; [| |lia];
    vm_compute in Hq; injection Hq as <-; discriminate.
Defined.

(** X4. For a package that the list does not have, [installPkg] leaves
    the store as it is, and still makes the native call and reports its
    outcome to the analytics. *)
Theorem installPkg_of_unlisted_package (env : Env) (pkg : GUIPackage)
    (wanted : option string) (w : World) :
  Forall (λ g, full_name g ≠ full_name pkg) (packages (store w)) →
  let v := version_or wanted (version pkg) in
  (installPkg env pkg wanted w).1 = Ok () ∧
  store (installPkg env pkg wanted w).2 = store w ∧
  events (installPkg env pkg wanted w).2
  = events w ++
    [Native_installPackage pkg v;
     match installPackage env pkg v with
     | Ok _ => TrackInstall (full_name pkg)
     | Throw e => TrackInstallFailed (full_name pkg) (failure_message e)
     end].
Proof.
  intros Hmissing. cbn zeta. rewrite installPkg_run. cbn zeta.
  unfold while_installing.
  rewrite (update_callback_missing _ (props_state _) _ Hmissing).
  rewrite (tick_updates_missing _ _ _ _ _ Hmissing).
  destruct (installPackage env pkg _) as [[]|e]; cbn;
    rewrite ?(update_callback_missing _ _ _ Hmissing), set_packages_same;
    done.
Qed.

Lemma installPkg_of_unlisted_package_witness :
  store (installPkg quiet_env (toGUI pkg_tea) None ready_world).2
  = store ready_world ∧
  events (installPkg quiet_env (toGUI pkg_tea) None ready_world).2
  = [Native_installPackage (toGUI pkg_tea) "0.31.2"; TrackInstall "tea.xyz"].
Proof.
  destruct (installPkg_of_unlisted_package quiet_env (toGUI pkg_tea) None
              ready_world) as (_ & Hstore & Hevents).
  - repeat constructor; discriminate.
  - split; [exact Hstore | exact Hevents].
Defined.

(** ** What [init] tells about the tea CLI and its progress *)

Lemma tea_check_flag cat inst w :
  ∃ logs,
    tea_check cat inst w
    = (Ok (), {| store := set_requireTeaCli
                            (requireTeaCli (store w) || tea_missing cat inst)
                            (store w);
                 events := events w ++ logs |}).
Proof.
  unfold tea_check, tea_missing, checkTeaCLIPackage.
  destruct (list_find _ cat) as [[i teaPkg]|] eqn:Hcat.
  - apply list_find_Some in Hcat as (Hi & Hname & _).
    rewrite (bool_decide_eq_true_2 (_ ∈ Package.full_name <$> cat)).
    2:{ apply list_elem_of_fmap. exists teaPkg.
        split; [done | by eapply list_elem_of_lookup_2]. }
    destruct (list_find _ inst) as [[j installed]|] eqn:Hinst; run.
    + apply list_find_Some in Hinst as (Hj & Hnamej & _).
      rewrite bool_decide_eq_false_2.
      2:{ intros Hnot. apply Hnot, list_elem_of_fmap. exists installed.
          split; [done | by eapply list_elem_of_lookup_2]. }
      eexists [_]. rewrite orb_false_r. by destruct w as [[] ?].
    + apply list_find_None in Hinst.
      rewrite bool_decide_eq_true_2.
      2:{ intros (x & Hx & Hin)%list_elem_of_fmap.
          by eapply Forall_forall in Hinst. }
      exists []. by rewrite orb_true_r, app_nil_r.
  - apply list_find_None in Hcat.
    rewrite (bool_decide_eq_false_2 (_ ∈ Package.full_name <$> cat)).
    2:{ intros (x & Hx & Hin)%list_elem_of_fmap.
        by eapply Forall_forall in Hcat. }
    exists []. run. rewrite orb_false_r, app_nil_r. by destruct w as [[] ?].
Qed.

(** The store when the loop of [init] is left, however it is left. *)
Lemma init_loop_left env cat inst w :
  initialized (store w) = false →
  getDistPackages env = Ok cat → getInstalledPackages env = Ok inst →
  ∃ rounds progress,
    store (init env w).2
    = after_rounds (store (loop_entered cat inst (catalog_set cat w)))
                   rounds progress.
Proof.
  intros Hfresh Hdist Hinst. rewrite (init_fresh _ _ _ Hfresh Hdist).
  rewrite (crossReference_fetched _ _ _ _ Hinst).
  destruct (for_installed_run env (length inst) 0 inst
              (loop_entered cat inst (catalog_set cat w)))
    as (rounds & progress & _ & Hw & _).
  destruct (for_installed env (length inst) 0 inst _) as [r w'].
  cbn in Hw. subst w'. exists rounds, progress. by destruct r.
Qed.

(** X5. When both fetches of [init] succeed, [requireTeaCli] is raised
    exactly if the catalog lists "tea.xyz" and the installed list does
    not (and it is never lowered); when the installed list cannot be
    fetched, it is not touched. *)
Theorem init_requires_tea_cli (env : Env) (cat : list Package.t) (w : World) :
  initialized (store w) = false → getDistPackages env = Ok cat →
  (∀ inst, getInstalledPackages env = Ok inst →
     requireTeaCli (store (init env w).2)
     = requireTeaCli (store w) || tea_missing cat inst) ∧
  (∀ e, getInstalledPackages env = Throw e →
     requireTeaCli (store (init env w).2) = requireTeaCli (store w)).
Proof.
  intros Hfresh Hdist. split.
  - intros inst Hinst.
    destruct (init_loop_left _ _ _ _ Hfresh Hdist Hinst)
      as (rounds & progress & ->).
    unfold loop_entered.
    destruct (tea_check_flag cat inst
                (add_events [Native_getInstalledPackages;
                             LogInfo "sync test for tea-cli" []]
                   (catalog_set cat w))) as (logs & ->).
    done.
  - intros e Hinst. rewrite (init_fresh _ _ _ Hfresh Hdist).
    by rewrite (crossReference_fetch_fails _ _ _ _ Hinst).
Qed.

Lemma init_requires_tea_cli_witness :
  requireTeaCli (store (init tea_env fresh_world).2) = true.
Proof.
  destruct (init_requires_tea_cli tea_env [pkg_wget; pkg_tea] fresh_world)
    as [Hflag _]; [reflexivity | reflexivity |].
  exact (Hflag [installed_wget] eq_refl).
Defined.

Lemma toFixed2Q_one (q : Q) : (q == 1)%Q → (toFixed2Q q == 1)%Q.
Proof.
  intros Hq. unfold toFixed2Q.
  destruct (Qlt_le_dec q 0) as [Hneg|_]; [rewrite Hq in Hneg; done|].
  assert (Hfloor : Qfloor (Qabs q * 100 + (1 # 2)) = 100%Z).
  { assert (Heq : (Qabs q * 100 + (1 # 2) == 201 # 2)%Q) by by rewrite Hq.
    by rewrite Heq. }
  by rewrite Hfloor.
Qed.

Lemma syncProgress_set_quiet env v w :
  (∀ x, syncProgress_subscribers env x = Ok ()) →
  ∃ v', syncProgress_set env v w
        = (Ok (), {| store := set_syncProgress v' (store w);
                     events := events w |}) ∧
        (v' == v)%Q.
Proof.
  intros Hquiet. unfold syncProgress_set. run.
  destruct (Qeq_bool _ v) eqn:Heq.
  - exists (syncProgress (store w)). split.
    + by rewrite set_syncProgress_same, world_eta.
    + by apply Qeq_bool_eq.
  - exists v. by rewrite Hquiet.
Qed.

Lemma for_installed_progress env len i installedPkgs w :
  (∀ x, syncProgress_subscribers env x = Ok ()) →
  installedPkgs ≠ [] →
  (syncProgress (store (for_installed env len i installedPkgs w).2)
   == toFixed2Q (inject_Z (Z.of_nat (i + length installedPkgs))
                 / inject_Z (Z.of_nat len)))%Q.
Proof.
  intros Hquiet. revert i w.
  induction installedPkgs as [|iPkg rest IH]; intros i w Hsome; [done|].
  rewrite for_installed_cons.
  match goal with
  | |- context [syncProgress_set env ?v ?w1] =>
      destruct (syncProgress_set_quiet env v w1 Hquiet) as (v' & -> & Hv')
  end.
  destruct rest as [|iPkg' rest].
  - cbn. by rewrite Hv'.
  - rewrite IH by done.
    by replace (S i + length (iPkg' :: rest))
      with (i + length (iPkg :: iPkg' :: rest)) by (cbn; lia).
Qed.

(** X6. When [init] has cross-referenced an installed list that is not
    empty, [syncProgress] stands at 1; with an empty installed list it is
    not touched. *)
Theorem init_sync_progress_complete (env : Env) (cat : list Package.t)
    (inst : list InstalledPackage.t) (w : World) :
  initialized (store w) = false →
  getDistPackages env = Ok cat → getInstalledPackages env = Ok inst →
  (∀ x, syncProgress_subscribers env x = Ok ()) →
  (inst ≠ [] → (syncProgress (store (init env w).2) == 1)%Q) ∧
  (inst = [] → syncProgress (store (init env w).2) = syncProgress (store w)).
Proof.
  intros Hfresh Hdist Hinst Hquiet.
  rewrite (init_fresh _ _ _ Hfresh Hdist).
  rewrite (crossReference_fetched _ _ _ _ Hinst). split.
  - intros Hsome.
    pose proof (for_installed_progress env (length inst) 0 inst
                  (loop_entered cat inst (catalog_set cat w)) Hquiet Hsome)
      as Hprogress.
    destruct (for_installed env (length inst) 0 inst _) as [r w'].
    assert (Hone : (syncProgress (store w') == 1)%Q).
    { cbn in Hprogress. rewrite Hprogress. apply toFixed2Q_one.
      cbn [Nat.add]. apply Qmult_inv_r.
      destruct inst; [done|]. done. }
    by destruct r.
  - intros ->.
    destruct (loop_entered_run cat [] (catalog_set cat w))
      as (flag & logs & -> & _). done.
Qed.

Lemma init_sync_progress_complete_witness :
  (syncProgress (store (init quiet_env fresh_world).2) == 1)%Q.
Proof.
  destruct (init_sync_progress_complete quiet_env example_catalog
              example_installed fresh_world) as [Hsome _];
    [reflexivity | reflexivity | reflexivity | intros x; reflexivity |].
  apply Hsome. discriminate.
Defined.

(** ** When the catalog cannot be fetched *)

Lemma idle_logs_counts (envs : list Env) :
  fetches (envs ≫= λ _, idle_log) = 0 ∧ builds (envs ≫= λ _, idle_log) = 0.
Proof.
  induction envs as [|env rest [IHf IHb]]; [done|].
  change ((env :: rest) ≫= λ _, idle_log)
    with (idle_log ++ (rest ≫= λ _, idle_log)).
  by rewrite fetches_app, builds_app, IHf, IHb.
Qed.

(** X7. When the catalog fetch of the first [init] fails, the call
    throws that error, and the failure is final: whatever calls of [init]
    follow, the catalog is never fetched again and no index is built, the
    list and the index stay as they were, and on a store without an index
    every [search] stays empty. *)
Theorem init_failed_fetch_is_final (bitap : Matcher) (env : Env) (e : JsThrown)
    (envs : list Env) (w : World) :
  initialized (store w) = false → getDistPackages env = Throw e →
  let w' := init_calls envs (init env w).2 in
  (init env w).1 = Throw e ∧
  initialized (store w') = true ∧
  packages (store w') = packages (store w) ∧
  packagesIndex (store w') = packagesIndex (store w) ∧
  fetches (events w') = fetches (events w) + 1 ∧
  builds (events w') = builds (events w) ∧
  (packagesIndex (store w) = None →
   ∀ term limit, search bitap (store w') term limit = []).
Proof.
  intros Hfresh Hdist w'. subst w'.
  rewrite (init_fetch_fails _ _ _ Hfresh Hdist). cbn [fst snd].
  rewrite init_calls_idle by done.
  destruct (idle_logs_counts envs) as [Hf Hb].
  unfold add_events. cbn [store events].
  rewrite !fetches_app, !builds_app, Hf, Hb.
  repeat split; try done.
  all: cbn; try lia.
  intros Hnone term limit. unfold search.
  destruct (store w) as [? ? ? ? index]. cbn in Hnone |- *. by subst index.
Qed.

Lemma init_failed_fetch_is_final_witness :
  (init no_catalog_env fresh_world).1 = Throw (ErrorObj "offline") ∧
  fetches (events (init_calls [quiet_env; quiet_env]
                     (init no_catalog_env fresh_world).2)) = 1 ∧
  search prefix_matcher
    (store (init_calls [quiet_env; quiet_env]
              (init no_catalog_env fresh_world).2)) "gnu" None = [].
Proof.
  destruct (init_failed_fetch_is_final prefix_matcher no_catalog_env
              (ErrorObj "offline") [quiet_env; quiet_env] fresh_world)
    as (Hthrow & _ & _ & _ & Hfetch & _ & Hsearch);
    [reflexivity | reflexivity |].
  split; [exact Hthrow|]. split; [exact Hfetch|].
  apply Hsearch. reflexivity.
Defined.

(** ** Fetching the bottles of a package *)

Lemma fetchPackageBottles_run remote pkgName w :
  fetchPackageBottles remote pkgName w
  = match getPackageBottles remote pkgName with
    | Ok fetched =>
        (Ok (), {| store := set_packages
                              (update_callback pkgName (props_bottles fetched)
                                 (packages (store w)))
                              (store w);
                   events := events w |})
    | Throw e => (Throw e, w)
    end.
Proof.
  unfold fetchPackageBottles, mbind, M_bind, run_callback.
  by destruct (getPackageBottles remote pkgName).
Qed.

(** X8. When the bottles of [pkgName] are fetched, the first record of
    that name gets them as its [bottles] and keeps every other field, the
    rest of the store and the trace stay as they were; the fake loader
    then sizes that record by the first fetched bottle, or by ten seconds
    at the assumed speed when no bottle came. *)
Theorem fetchPackageBottles_sets_bottles (remote : Remote) (pkgName : string)
    (fetched : list Bottle) (w : World) (i : nat) (g : GUIPackage) :
  getPackageBottles remote pkgName = Ok fetched →
  first_named pkgName (packages (store w)) i g →
  let g' :=
    {| name := name g; full_name := full_name g; version := version g;
       desc := desc g; categories := categories g;
       bottles := Some fetched;
       state := state g; installed_versions := installed_versions g;
       install_progress_percentage := install_progress_percentage g |} in
  fetchPackageBottles remote pkgName w
  = (Ok (), {| store := set_packages (<[i := g']> (packages (store w)))
                                     (store w);
               events := events w |}) ∧
  loader_size g'
  = match fetched with
    | bottle :: _ => Finite (inject_Z (Z.of_N (bytes bottle)))
    | [] => num_mul assumedDlSpeedMb (Finite 10)
    end.
Proof.
  intros Hfetch Hfirst g'. split.
  - rewrite fetchPackageBottles_run, Hfetch.
    by rewrite (update_callback_found _ (props_bottles fetched) _ _ _ Hfirst).
  - unfold loader_size. cbn. by destruct fetched.
Qed.

Lemma fetchPackageBottles_sets_bottles_witness :
  bottles <$> packages (store (fetchPackageBottles bottle_mirror "curl.se"
                                 ready_world).2)
  = [None; Some [ {| bytes := 52428800 |} ]; None].
Proof.
  destruct (fetchPackageBottles_sets_bottles bottle_mirror "curl.se"
              [ {| bytes := 52428800 |} ] ready_world 1
              (spread (toGUI pkg_curl)
                 (installed_props (toGUI pkg_curl) installed_curl)))
    as [-> _]; [reflexivity | | reflexivity].
  split; [reflexivity|]. split; [reflexivity|].
  intros [|j] q Hq Hj; [|lia].
  vm_compute in Hq. injection Hq as <-. discriminate.
Defined.

(** X9. [fetchPackageBottles] has no handler and no fallback: when the
    fetch fails, the call throws that error and nothing is changed; when
    no record has the name, the fetched bottles are dropped and nothing is
    changed. *)
Theorem fetchPackageBottles_without_effect (remote : Remote) (pkgName : string)
    (w : World) :
  match getPackageBottles remote pkgName with
  | Throw e => fetchPackageBottles remote pkgName w = (Throw e, w)
  | Ok _ =>
      Forall (λ g, full_name g ≠ pkgName) (packages (store w)) →
      fetchPackageBottles remote pkgName w = (Ok (), w)
  end.
Proof.
  rewrite fetchPackageBottles_run.
  destruct (getPackageBottles remote pkgName) as [fetched|e]; [|done].
  intros Hnone. rewrite (update_callback_missing _ _ _ Hnone).
  by rewrite set_packages_same, world_eta.
Qed.

(** ** What [search] returns once the list has been updated *)

Lemma omap_Forall2 {A B} (R : B → B → Prop) (f g : A → option B) (l : list A) :
  (∀ x, option_Forall2 R (f x) (g x)) → Forall2 R (omap f l) (omap g l).
Proof.
  intros Hfg. induction l as [|x l IH]; cbn; [constructor|].
  destruct (Hfg x); [by constructor | done].
Qed.

Lemma search_Forall2 (R : GUIPackage → GUIPackage → Prop) bitap s s' term limit :
  packagesIndex s' = packagesIndex s →
  Forall2 R (packages s) (packages s') →
  Forall2 R (search bitap s term limit) (search bitap s' term limit).
Proof.
  intros Hindex Hdocs. unfold search. rewrite Hindex.
  destruct (packagesIndex s) as [index|]; [|constructor].
  destruct (decide (term = "")); [constructor|].
  unfold fuse_search. apply omap_Forall2. intros r.
  by apply Forall2_lookup.
Qed.

Lemma update_callback_Forall2 fname props pkgs :
  Forall2 (λ before after, after = before ∨ after = spread before props)
    pkgs (update_callback fname props pkgs).
Proof.
  apply Forall2_lookup. intros k. rewrite update_callback_lookup.
  destruct (pkgs !! k) as [g|]; cbn; constructor.
  destruct (targets fname pkgs k); auto.
Qed.

Lemma update_callback_kept fname props pkgs :
  Partial.name props = None → Partial.full_name props = None →
  Partial.version props = None → Partial.desc props = None →
  Partial.categories props = None → Partial.bottles props = None →
  Partial.installed_versions props = None →
  Forall2 kept pkgs (update_callback fname props pkgs).
Proof.
  intros Hn Hf Hv Hd Hc Hb Hi.
  eapply Forall2_impl; [apply (update_callback_Forall2 fname props)|].
  intros g g' [->| ->]; [apply kept_refl|].
  unfold kept, spread. cbn. rewrite Hn, Hf, Hv, Hd, Hc, Hb, Hi. by repeat split.
Qed.

Lemma Forall2_kept_trans pkgs pkgs' pkgs'' :
  Forall2 kept pkgs pkgs' → Forall2 kept pkgs' pkgs'' → Forall2 kept pkgs pkgs''.
Proof. apply Forall2_trans. intros x y z. apply kept_trans. Qed.

Lemma tick_updates_kept fname inc p n pkgs :
  Forall2 kept pkgs (tick_updates fname inc p n pkgs).
Proof.
  revert p pkgs. induction n as [|n IH]; intros p pkgs; cbn [tick_updates].
  - apply Forall2_lookup. intros k.
    destruct (pkgs !! k); constructor. apply kept_refl.
  - eapply Forall2_kept_trans; [|apply IH]. by apply update_callback_kept.
Qed.

(** The list and the index over an [installPkg], however it ends. *)
Lemma installPkg_kept env pkg wanted w :
  packagesIndex (store (installPkg env pkg wanted w).2)
  = packagesIndex (store w) ∧
  Forall2 kept (packages (store w))
               (packages (store (installPkg env pkg wanted w).2)).
Proof.
  rewrite installPkg_run. cbn zeta.
  assert (Hwhile : Forall2 kept (packages (store w))
                     (while_installing env pkg (packages (store w)))).
  { unfold while_installing.
    eapply Forall2_kept_trans; [|apply tick_updates_kept].
    by apply update_callback_kept. }
  destruct (installPackage env pkg _) as [[]|e]; cbn [snd store]; split;
    try by destruct (store w).
  - replace (packages (set_packages _ (store w))) with
      (update_callback (full_name pkg) (props_progress (Finite 100))
         (update_callback (full_name pkg) (props_state INSTALLED)
            (while_installing env pkg (packages (store w)))))
      by by destruct (store w).
    eapply Forall2_kept_trans; [exact Hwhile|].
    eapply Forall2_kept_trans; by apply update_callback_kept.
  - replace (packages (set_packages _ (store w))) with
      (update_callback (full_name pkg) (props_progress (Finite 100))
         (while_installing env pkg (packages (store w))))
      by by destruct (store w).
    eapply Forall2_kept_trans; [exact Hwhile|].
    by apply update_callback_kept.
Qed.

(** X10. The index is not rebuilt by an update: after [updatePackage],
    [search] returns the records at the same positions as before, in the
    same order, each one as it was or with [props] spread over it, also
    when [props] changes a field that the index has as a key. *)
Theorem search_after_updatePackage (bitap : Matcher) (fname : string)
    (props : Partial.t) (w : World) (term : string) (limit : option Z) :
  Forall2 (λ before after, after = before ∨ after = spread before props)
    (search bitap (store w) term limit)
    (search bitap (store (updatePackage fname props w).2) term limit).
Proof.
  rewrite updatePackage_run. cbn [snd store].
  apply search_Forall2; [by destruct (store w)|].
  replace (packages (set_packages _ (store w)))
    with (update_callback fname props (packages (store w)))
    by by destruct (store w).
  apply update_callback_Forall2.
Qed.

(** X11. An install does not change what [search] finds: after
    [installPkg], whether the native call succeeded or failed, [search]
    returns as many records as before, in the same order, and each differs
    from the one it returned before in state and progress only. *)
Theorem search_after_installPkg (bitap : Matcher) (env : Env) (pkg : GUIPackage)
    (wanted : option string) (w : World) (term : string) (limit : option Z) :
  Forall2 kept
    (search bitap (store w) term limit)
    (search bitap (store (installPkg env pkg wanted w).2) term limit).
Proof.
  destruct (installPkg_kept env pkg wanted w) as [Hindex Hkept].
  by apply search_Forall2.
Qed.

(** ** Syncing the data of a package *)

Ltac run_sync :=
  unfold syncPackageData, updatePackageData, mbind, Sync_bind, mret, Sync_ret,
    call, settle, listing, unawaited;
  cbn.

Section sync_properties.
Context {Contributor License : Type}.
Implicit Types (g h : PackageData Contributor License).
Implicit Types (p q : Page Contributor License).
Implicit Types (hub : GitHub Contributor License).
Implicit Types (subscribers : Sync Contributor License unit).

(** The subscribers run after the update, and only then. *)
Lemma syncPackageData_subscribers native hub subscribers g p :
  synced g = false →
  syncPackageData native hub subscribers (Some g) p
  = match syncPackageData native hub (mret ()) (Some g) p with
    | Some (Ok _, p') => subscribers p'
    | other => other
    end.
Proof.
  intros Hsynced. run_sync. rewrite Hsynced.
  destruct (getPackage native _) as [pkg|e]; cbn; [|done].
  destruct (detail_github pkg) as [gh|]; cbn; [|done].
  destruct (decide (gh = "")); cbn; [done|].
  by destruct (getReadme hub _ _) as [readme|?],
    (getContributors hub _ _) as [cs|?],
    (getRepoAsPackage hub _ _) as [rd|?].
Qed.

Lemma update_by_name_found {A P} (name_of : A → string) (merge : A → P → A)
    fname props (l : list A) i x :
  first_with (λ y, name_of y = fname) l i x →
  update_by_name name_of merge fname props l = <[i := merge x props]> l.
Proof.
  intros Hfirst. unfold update_by_name.
  by rewrite (proj2 (list_find_Some (λ y, name_of y = fname) l i x) Hfirst).
Qed.

Lemma first_with_insert {A} (P : A → Prop) (l : list A) i x y :
  first_with P l i x → P y → first_with P (<[i := y]> l) i y.
Proof.
  intros (Hi & _ & Hbefore) Hy. split; [|split; [done|]].
  - apply list_lookup_insert_eq. by eapply lookup_lt_Some.
  - intros j z Hj Hlt. rewrite list_lookup_insert_ne in Hj by lia. eauto.
Qed.


(** The update of the records with their data is the update of
    [updatePackage] on the fields of [GUIPackage]. *)
Lemma update_callback_by_name fname props pkgs :
  update_callback fname props pkgs = update_by_name full_name spread fname props pkgs.
Proof. done. Qed.

Lemma update_by_name_core fname (props : DataProps Contributor License)
    (l : list (PackageData Contributor License)) :
  core <$> update_by_name (λ x, full_name (core x)) spread_data fname props l
  = update_callback fname (core_props _ _ props) (core <$> l).
Proof.
  unfold update_by_name, update_callback. rewrite list_find_fmap.
  unfold compose.
  destruct (list_find _ l) as [[i x]|]; cbn; [|done].
  by rewrite list_fmap_insert.
Qed.

(** What a sync of a record that is not yet synced does, whatever the
    list: the calls it makes, and either the properties it spreads over
    the first record of the name, or the error it throws. *)
Lemma syncPackageData_run native hub g :
  synced g = false →
  ∃ (outcome : result (DataProps Contributor License))
    (made : list (Call Contributor License)),
    (∀ q, syncPackageData native hub (mret ()) (Some g) q
          = match outcome with
            | Ok props =>
                Some (Ok (),
                      {| listed := update_by_name (λ pkg, full_name (core pkg))
                                     spread_data (full_name (core g)) props
                                     (listed q);
                         calls := calls q ++ made |})
            | Throw e =>
                Some (Throw e,
                      {| listed := listed q; calls := calls q ++ made |})
            end) ∧
    (∀ props, outcome = Ok props →
       Partial.full_name (core_props _ _ props) = None ∧
       synced_prop _ _ props = Some true).
Proof.
  intros Hsynced. run_sync. rewrite Hsynced.
  destruct (getPackage native _) as [pkg|e]; cbn.
  2:{ exists (Throw e). eexists [_]. split; [done | discriminate]. }
  destruct (detail_github pkg) as [gh|]; cbn.
  2:{ eexists (Ok _). eexists [_].
      split; [done | by intros props [= <-]]. }
  destruct (decide (gh = "")); cbn.
  { eexists (Ok _). eexists [_]. split; [done | by intros props [= <-]]. }
  destruct (getReadme hub _ _) as [readme|e]; cbn.
  2:{ exists (Throw e). eexists [_; _; _; _].
      split; [intros q; by rewrite <- !app_assoc | discriminate]. }
  destruct (getContributors hub _ _) as [cs|e]; cbn.
  2:{ exists (Throw e). eexists [_; _; _; _].
      split; [intros q; by rewrite <- !app_assoc | discriminate]. }
  destruct (getRepoAsPackage hub _ _) as [rd|e]; cbn.
  2:{ exists (Throw e). eexists [_; _; _; _].
      split; [intros q; by rewrite <- !app_assoc | discriminate]. }
  eexists (Ok _). eexists [_; _; _; _].
  split; [intros q; by rewrite <- !app_assoc | by intros props [= <-]].
Qed.

(** What [split_on] gives: a text without the separator is the one
    part, and such a text before a separator is the first part. *)
Lemma split_on_whole (sep : Ascii.ascii) (a : string) :
  Forall (λ c, c ≠ sep) (String.list_ascii_of_string a) → split_on sep a = [a].
Proof.
  induction a as [|c a IH];
    cbn -[Ascii.eqb]; [done|].
  intros [Hc Ha]%Forall_cons. rewrite (proj2 (Ascii.eqb_neq c sep) Hc).
  by rewrite IH.
Qed.

Lemma split_on_first (sep : Ascii.ascii) (a rest : string) :
  Forall (λ c, c ≠ sep) (String.list_ascii_of_string a) →
  split_on sep (a +:+ String sep rest) = a :: split_on sep rest.
Proof.
  induction a as [|c a IH].
  - intros _. change ("" +:+ String sep rest) with (String sep rest).
    cbn [split_on]. by rewrite Ascii.eqb_refl.
  - cbn [String.list_ascii_of_string]. intros [Hc Ha]%Forall_cons.
    change (String c a +:+ String sep rest)
      with (String c (a +:+ String sep rest)).
    cbn [split_on]. rewrite (proj2 (Ascii.eqb_neq c sep) Hc).
    by rewrite IH.
Qed.

Lemma update_by_name_fmap {A P B} (name_of : A → string) (merge : A → P → A)
    (f : A → B) fname props (l : list A) :
  (∀ x, f (merge x props) = f x) →
  f <$> update_by_name name_of merge fname props l = f <$> l.
Proof.
  intros Hf. unfold update_by_name.
  destruct (list_find _ l) as [[i x]|] eqn:Hfind; [|done].
  apply list_find_Some in Hfind as (Hi & _).
  rewrite list_fmap_insert, Hf. apply list_insert_id.
  by rewrite list_lookup_fmap, Hi.
Qed.

(** X12. Called on its own, [syncPackageData] comes to an end; when it
    throws (a call to the outside has failed) the list is as it was, so
    no record is left marked as synced without its data; and in every
    case the list has the same names and slugs in the same places. *)
Theorem syncPackageData_all_or_nothing (native : Remote)
    (hub : GitHub Contributor License)
    (guiPkg : option (PackageData Contributor License))
    (p : Page Contributor License) :
  ∃ r p',
    syncPackageData native hub (mret ()) guiPkg p = Some (r, p') ∧
    (∀ e, r = Throw e → listed p' = listed p) ∧
    (λ pkg, full_name (core pkg)) <$> listed p'
    = (λ pkg, full_name (core pkg)) <$> listed p ∧
    slug <$> listed p' = slug <$> listed p.
Proof.
  destruct guiPkg as [g|]; [|by exists (Ok ()), p].
  destruct (synced g) eqn:Hsynced.
  { exists (Ok ()), p. run_sync. by rewrite Hsynced. }
  destruct (syncPackageData_run native hub g Hsynced)
    as (outcome & made & Hrun & Hprops).
  rewrite Hrun. destruct outcome as [props|e]; eexists _, _.
  - split; [done|]. cbn. split; [discriminate|].
    destruct (Hprops props eq_refl) as [Hname _]. split.
    + apply update_by_name_fmap. intros x. cbn. by rewrite Hname.
    + by apply update_by_name_fmap.
  - by split.
Qed.


(** X14. When [getPackage] gives a [github] that is not empty, the
    first two of the parts that [github.split("/")] gives are passed to
    the three GitHub calls as owner and repo (for "a/b/c" these are "a"
    and "b"; a part that does not exist is undefined); when all three
    succeed the first record of the name is replaced: it is marked as
    synced, its readme is the one of GitHub, or the generated text when
    that one is empty, and its contributors and its license are those of
    GitHub, the license also when the repository has none. *)
Theorem syncPackageData_with_github (native : Remote)
    (hub : GitHub Contributor License) (g : PackageData Contributor License)
    (pkg : PackageDetail) (gh readme : string) (cs : list Contributor)
    (rd : RepoData License) (p : Page Contributor License) (i : nat) :
  first_with (λ x, full_name (core x) = full_name (core g)) (listed p) i g →
  synced g = false →
  getPackage native (full_name (core g)) = Ok pkg →
  detail_github pkg = Some gh → gh ≠ "" →
  let owner := split_on "/" gh !! 0 in
  let repo := split_on "/" gh !! 1 in
  getReadme hub owner repo = Ok readme →
  getContributors hub owner repo = Ok cs →
  getRepoAsPackage hub owner repo = Ok rd →
  let g' :=
    {| core := spread (core g) (props_of_detail pkg);
       slug := slug g; homepage := homepage g;
       synced := true;
       readme_md :=
         Some (if decide (readme = "")
               then readme_template (full_name (core g)) (homepage g)
               else readme);
       github := Some gh;
       contributors := Some cs; license := repo_license rd |} in
  syncPackageData native hub (mret ()) (Some g) p
  = Some (Ok (), {| listed := <[i := g']> (listed p);
                    calls := calls p ++
                      [Call_getPackage (full_name (core g));
                       Call_getReadme owner repo;
                       Call_getContributors owner repo;
                       Call_getRepoAsPackage owner repo] |}).
Proof.
  intros Hfirst Hsynced Hpkg Hgithub Hgh owner repo Hreadme Hcs Hrd g'.
  run_sync. rewrite Hsynced, Hpkg. cbn. rewrite Hgithub.
  destruct (decide (gh = "")) as [|_]; [done|]. cbn.
  fold owner repo. rewrite Hreadme, Hcs, Hrd. cbn.
  rewrite (update_by_name_found (λ x, full_name (core x)) spread_data
             _ _ _ _ _ Hfirst).
  by rewrite <- !app_assoc.
Qed.

(** ** A subscription to a package *)

(** One notification of the subscriber. *)
Lemma subscribeToPackage_S n native hub wanted
    (cb : PackageData Contributor License → result unit) p :
  subscribeToPackage (S n) native hub wanted cb p
  = match list_find (λ x, slug x = wanted) (listed p) with
    | Some (_, foundPackage) =>
        let p0 := {| listed := listed p;
                     calls := calls p ++ [Called_back foundPackage] |} in
        match cb foundPackage with
        | Ok _ =>
            unawaited _ _
              (syncPackageData native hub
                 (subscribeToPackage n native hub wanted cb)
                 (Some foundPackage)) p0
        | Throw e => Some (Throw e, p0)
        end
    | None => Some (Ok (), p)
    end.
Proof.
  cbn [subscribeToPackage]. unfold mbind, Sync_bind, listing, call. cbn.
  destruct (list_find _ (listed p)) as [[i foundPackage]|]; [|done].
  by destruct (cb foundPackage) as [[]|e].
Qed.

Lemma spread_data_synced g (props : DataProps Contributor License) :
  synced_prop _ _ props = Some true → synced (spread_data g props) = true.
Proof. intros Hprop. cbn. by rewrite Hprop. Qed.

(** X15. A subscription to the slug of a record that is not yet synced,
    and that is the first of its slug and of its name: when the sync
    succeeds, the callback is run with the record as it was, the data is
    fetched once, the callback is run again with the synced record that
    has taken its place, and the subscription comes to rest there. *)
Theorem subscribeToPackage_syncs_once (n : nat) (native : Remote)
    (hub : GitHub Contributor License) (wanted : string)
    (cb : PackageData Contributor License → result unit)
    (p p1 : Page Contributor License) (i : nat)
    (g : PackageData Contributor License) :
  first_with (λ x, slug x = wanted) (listed p) i g →
  first_with (λ x, full_name (core x) = full_name (core g)) (listed p) i g →
  synced g = false →
  (∀ x, cb x = Ok ()) →
  syncPackageData native hub (mret ()) (Some g)
    {| listed := listed p; calls := calls p ++ [Called_back g] |}
  = Some (Ok (), p1) →
  ∃ g', listed p1 !! i = Some g' ∧ synced g' = true ∧
        subscribeToPackage (S (S n)) native hub wanted cb p
        = Some (Ok (), {| listed := listed p1;
                          calls := calls p1 ++ [Called_back g'] |}).
Proof.
  intros Hslug Hname Hsynced Hcb Hsync.
  destruct (syncPackageData_run native hub g Hsynced)
    as (outcome & made & Hrun & Hprops).
  rewrite Hrun in Hsync. destruct outcome as [props|e]; [|done].
  destruct (Hprops props eq_refl) as [_ Hmark]. clear Hprops.
  injection Hsync as <-. cbn [listed calls].
  rewrite (update_by_name_found _ _ _ _ _ _ _ Hname).
  exists (spread_data g props).
  split; [|split; [by apply spread_data_synced|]].
  { apply list_lookup_insert_eq. destruct Hname as [Hi _].
    by eapply lookup_lt_Some. }
  rewrite subscribeToPackage_S.
  rewrite (proj2 (list_find_Some _ _ _ _) Hslug). cbn zeta. rewrite Hcb.
  unfold unawaited. rewrite syncPackageData_subscribers, Hrun by done.
  cbn [listed calls].
  rewrite (update_by_name_found _ _ _ _ _ _ _ Hname).
  rewrite subscribeToPackage_S. cbn [listed calls].
  assert (Hslug' : first_with (λ x, slug x = wanted)
                     (<[i := spread_data g props]> (listed p)) i
                     (spread_data g props)).
  { apply (first_with_insert _ _ _ _ _ Hslug). by destruct Hslug as (_ & ? & _). }
  rewrite (proj2 (list_find_Some _ _ _ _) Hslug'). cbn zeta. rewrite Hcb.
  run_sync. by rewrite Hmark.
Qed.

(** X16. When the sync that a notification starts fails, nobody handles
    the error: the callback has been run once with the record, the list
    is as it was, and the subscriber returns normally. *)
Theorem subscribeToPackage_failed_sync (n : nat) (native : Remote)
    (hub : GitHub Contributor License) (wanted : string)
    (cb : PackageData Contributor License → result unit)
    (p p1 : Page Contributor License) (i : nat)
    (g : PackageData Contributor License) (e : JsThrown) :
  first_with (λ x, slug x = wanted) (listed p) i g →
  synced g = false →
  cb g = Ok () →
  syncPackageData native hub (mret ()) (Some g)
    {| listed := listed p; calls := calls p ++ [Called_back g] |}
  = Some (Throw e, p1) →
  subscribeToPackage (S n) native hub wanted cb p
  = Some (Ok (), {| listed := listed p;
                    calls := calls p1 ++ [Unhandled_rejection e] |}).
Proof.
  intros Hslug Hsynced Hcb Hsync.
  destruct (syncPackageData_run native hub g Hsynced)
    as (outcome & made & Hrun & _).
  rewrite Hrun in Hsync. destruct outcome as [props|e']; [done|].
  injection Hsync as <- <-.
  rewrite subscribeToPackage_S.
  rewrite (proj2 (list_find_Some _ _ _ _) Hslug). cbn zeta. rewrite Hcb.
  unfold unawaited. by rewrite syncPackageData_subscribers, Hrun by done.
Qed.

(** X17. A notification for a slug that no record has does nothing at
    all; one that finds a synced record runs the callback with it and
    fetches nothing; and when the callback throws, the error goes to the
    store that notified and no sync is started. *)
Theorem subscribeToPackage_without_sync (n : nat) (native : Remote)
    (hub : GitHub Contributor License) (wanted : string)
    (cb : PackageData Contributor License → result unit)
    (p : Page Contributor License) :
  (Forall (λ x, slug x ≠ wanted) (listed p) →
   subscribeToPackage (S n) native hub wanted cb p = Some (Ok (), p)) ∧
  (∀ i g, first_with (λ x, slug x = wanted) (listed p) i g →
     let p0 := {| listed := listed p; calls := calls p ++ [Called_back g] |} in
     match cb g with
     | Ok _ =>
         synced g = true →
         subscribeToPackage (S n) native hub wanted cb p = Some (Ok (), p0)
     | Throw e =>
         subscribeToPackage (S n) native hub wanted cb p = Some (Throw e, p0)
     end).
Proof.
  split.
  - intros Hnone. rewrite subscribeToPackage_S.
    by rewrite (proj2 (list_find_None _ _) Hnone).
  - intros i g Hslug p0. rewrite subscribeToPackage_S.
    rewrite (proj2 (list_find_Some _ _ _ _) Hslug). cbn zeta.
    destruct (cb g) as [[]|e]; [|done].
    intros Hsynced. run_sync. by rewrite Hsynced.
Qed.

End sync_properties.

Lemma data_curl_first_slug :
  first_with (λ x, slug x = "curl_se") (listed example_page) 1 data_curl.
Proof.
  split; [reflexivity|]. split; [reflexivity|].
  intros [|j] y Hy Hj; [|lia]. injection Hy as <-. discriminate.
Defined.

Lemma data_curl_first_name :
  first_with (λ x, full_name (core x) = full_name (core data_curl))
    (listed example_page) 1 data_curl.
Proof.
  split; [reflexivity|]. split; [reflexivity|].
  intros [|j] y Hy Hj; [|lia]. injection Hy as <-. discriminate.
Defined.


Lemma syncPackageData_with_github_witness :
  (λ r, readme_md <$> listed r.2)
    <$> syncPackageData github_remote example_hub (mret ()) (Some data_curl)
          example_page
  = Some [None; Some (readme_template "curl.se" (Some "https://curl.se"))].
Proof.
  rewrite (syncPackageData_with_github github_remote example_hub data_curl
             {| detail_bottles := None; detail_github := Some "curl/curl" |}
             "curl/curl" "" ["bagder"] {| repo_license := Some "curl" |}
             example_page 1);
    [reflexivity | exact data_curl_first_name | reflexivity | reflexivity
    | reflexivity | discriminate | reflexivity | reflexivity | reflexivity].
Defined.

Lemma subscribeToPackage_syncs_once_witness :
  (λ r, length (calls r.2))
    <$> subscribeToPackage 2 plain_remote example_hub "curl_se" (λ _, Ok ())
          example_page
  = Some 3.
Proof.
  epose proof (subscribeToPackage_syncs_once 0 plain_remote example_hub
                 "curl_se" (λ _, Ok ()) example_page _ 1 data_curl
                 data_curl_first_slug data_curl_first_name eq_refl
                 (λ _, eq_refl) eq_refl) as (g' & _ & _ & Heq).
  rewrite Heq. reflexivity.
Defined.

Lemma subscribeToPackage_failed_sync_witness :
  subscribeToPackage 1 unreachable example_hub "curl_se" (λ _, Ok ())
    example_page
  = Some (Ok (), {| listed := listed example_page;
                    calls := [Called_back data_curl; Call_getPackage "curl.se";
                              Unhandled_rejection (ErrorObj "offline")] |}).
Proof.
  apply (subscribeToPackage_failed_sync 0 unreachable example_hub "curl_se"
           (λ _, Ok ()) example_page
           {| listed := listed example_page;
              calls := [Called_back data_curl; Call_getPackage "curl.se"] |}
           1 data_curl (ErrorObj "offline"));
    [exact data_curl_first_slug | reflexivity | reflexivity | reflexivity].
Defined.


(** ** What the callback of the fake loader is given *)

(** X20. For a package whose first bottle has no bytes, the estimated
    time is zero and the increment is not a finite number: at every tick
    the callback is given a value that is not a finite number. *)
Theorem reported_progress_of_empty_bottle (pkg : GUIPackage) (bottle : Bottle)
    (rest : list Bottle) (n : nat) :
  bottles pkg = Some (bottle :: rest) → bytes bottle = 0%N →
  loader_increment pkg = NonFinite ∧ reported_progress pkg (S n) = NonFinite.
Proof.
  intros Hbottles Hbytes.
  assert (Hinc : loader_increment pkg = NonFinite).
  { unfold loader_increment, loader_eta, loader_size.
    by rewrite Hbottles, Hbytes. }
  split; [done|]. unfold reported_progress. rewrite Hinc.
  unfold loader_progress. rewrite Nat.iter_succ.
  unfold next_progress. by destruct (Nat.iter n _ _).
Qed.

Lemma reported_progress_of_empty_bottle_witness :
  reported_progress
    {| name := "zlib"; full_name := "zlib.net"; version := "1.2.13";
       desc := ""; categories := []; bottles := Some [ {| bytes := 0 |} ];
       state := AVAILABLE; installed_versions := None;
       install_progress_percentage := None |} 1
  = NonFinite.
Proof.
  eapply reported_progress_of_empty_bottle; reflexivity.
Defined.
